(** * CacheService: the in-memory TTL cache of pricedb-io-utils

    A shallow embedding of [lib/cache.js] (class [CacheService]) and the
    properties of its store: expiry, the sweep, eviction order, deletion,
    key generation, configuration and the timer/entry invariant.

    Conventions of the embedding.
    - Times are integer milliseconds ([Z]), TTLs integer seconds.  Every
      method that reads [Date.now()] takes the reading as its argument
      [now]; a synchronous method body is taken to run within one reading.
    - [Math.random() < 0.1] in [set] is the boolean argument [roll].
    - [this.cache] is a JavaScript [Map], whose iteration order is the
      insertion order and matters for the sweep: it is an association list
      with the [Map] operations written out.  [this.timers] is only ever
      looked up, inserted into, deleted from and emptied: it is a [gmap].
    - An [async] method returns a promise: it is a function from the
      service state to an [Outcome] (fulfilled or rejected) and the state
      it leaves behind.
    - Timers are those of Node's [timers] module, read on the same clock
      as [Date.now()]: a callback runs at a reading no earlier than the
      one its handle is due at.
    - JavaScript numbers are integers ([Z]) throughout. *)

From Stdlib Require Import ZArith Ascii String.
From stdpp Require Import gmap strings list sorting pretty.

Set Warnings "-register-all".
Local Open Scope string_scope.
Local Open Scope Z_scope.

(** ** JavaScript values *)

Inductive jsval : Type :=
| JUndefined
| JNull
| JBool (b : bool)
| JNum (n : Z)
| JStr (s : string)
| JArr (items : list jsval)
| JObj (props : list (string * jsval)).

(** An ordinary object: its own enumerable string-keyed properties, in the
    order they were created. *)
Abbreviation jsobj := (list (string * jsval)).

(** [v !== null] *)
Definition not_null (v : jsval) : bool :=
  match v with JNull => false | _ => true end.

(** The settled state of a promise. *)
Inductive Outcome (A : Type) : Type :=
| Fulfilled (a : A)
| Rejected (reason : jsval).
Arguments Fulfilled {A} a.
Arguments Rejected {A} reason.

(** An [Error] object as far as the code looks at it: its name, its
    message, and its stack cut down to the first line. *)
Definition js_error (name message : string) : jsval :=
  JObj [("name", JStr name); ("message", JStr message);
        ("stack", JStr (name +:+ ": " +:+ message))].

Definition TypeError (message : string) : jsval := js_error "TypeError" message.

(** ** [Array.prototype.sort] with a comparator

    The sort is stable (ECMAScript 2019); for a consistent comparator its
    result is determined, and insertion from the right computes it: an
    element moves behind a later one only when the comparator is positive. *)

Section ArraySort.
Context {A : Type} (cmp : A → A → Z).

Fixpoint sort_insert (x : A) (l : list A) : list A :=
  match l with
  | [] => [x]
  | y :: l' => if cmp x y <=? 0 then x :: l else y :: sort_insert x l'
  end.

Definition Array_sort (l : list A) : list A := foldr sort_insert [] l.
End ArraySort.

(** ** The JavaScript [Map] holding the entries *)

Section JsMap.
Context {V : Type}.

Fixpoint Map_get (key : string) (m : list (string * V)) : option V :=
  match m with
  | [] => None
  | (k, v) :: m' => if decide (k = key) then Some v else Map_get key m'
  end.

Definition Map_has (key : string) (m : list (string * V)) : bool :=
  match Map_get key m with Some _ => true | None => false end.

(** [m.set(key, v)]: an existing key keeps its place, a new one goes last. *)
Fixpoint Map_set (key : string) (v : V) (m : list (string * V)) : list (string * V) :=
  match m with
  | [] => [(key, v)]
  | (k, w) :: m' =>
      if decide (k = key) then (k, v) :: m' else (k, w) :: Map_set key v m'
  end.

(** [m.delete(key)]: no entry under [key] is left. *)
Definition Map_delete (key : string) (m : list (string * V)) : list (string * V) :=
  filter (λ kv, kv.1 ≠ key) m.

Definition Map_keys (m : list (string * V)) : list string := m.*1.

(** The keys of a [Map] are distinct. *)
Definition Map_wf (m : list (string * V)) : Prop := NoDup (Map_keys m).
End JsMap.

(** ** Data model *)

Record CacheEntry : Type := {
  data : jsval;
  created : Z;
  lastAccessed : Z;
  expires : option Z   (* [None] is [null] *)
}.

Inductive LogLevel : Type := debug | info | warn | error.

(** A logger object, as far as [logger?.[level]] and the calls see it:
    which of the four methods it has.  What it is handed is recorded in the
    service state ([sink]). *)
Record Logger : Type := {
  has_debug : bool; has_info : bool; has_warn : bool; has_error : bool
}.

Definition has_method (l : Logger) (level : LogLevel) : bool :=
  match level with
  | debug => has_debug l | info => has_info l
  | warn => has_warn l | error => has_error l
  end.

Record LogRecord : Type := {
  log_level : LogLevel; log_message : string; log_metadata : jsobj
}.

Record Config : Type := {
  defaultTTL : Z;
  maxSize : Z;
  enableLogging : bool;
  logger : option Logger;
  cleanupInterval : Z
}.

(** The [options] argument: any subset of the configuration keys. *)
Record Options : Type := {
  opt_defaultTTL : option Z;
  opt_maxSize : option Z;
  opt_enableLogging : option bool;
  opt_logger : option (option Logger);
  opt_cleanupInterval : option Z
}.

Definition no_options : Options :=
  {| opt_defaultTTL := None; opt_maxSize := None; opt_enableLogging := None;
     opt_logger := None; opt_cleanupInterval := None |}.

(** [{ ...c, ...o }] *)
Definition spread (c : Config) (o : Options) : Config :=
  {| defaultTTL := default (defaultTTL c) (opt_defaultTTL o);
     maxSize := default (maxSize c) (opt_maxSize o);
     enableLogging := default (enableLogging c) (opt_enableLogging o);
     logger := default (logger c) (opt_logger o);
     cleanupInterval := default (cleanupInterval c) (opt_cleanupInterval o) |}.

(** A handle returned by [setTimeout(callback, delay)]: when it was armed
    and the delay asked for.  Node's [timers] module sets a delay above
    [TIMEOUT_MAX] or below 1 to 1 millisecond. *)
Record Timeout : Type := { armed_at : Z; delay : Z }.

Definition TIMEOUT_MAX : Z := 2147483647.

Definition due (t : Timeout) : Z :=
  armed_at t + (if (1 <=? delay t) && (delay t <=? TIMEOUT_MAX) then delay t else 1).

Record CacheService : Type := {
  cache : list (string * CacheEntry);
  timers : gmap string Timeout;
  _config : Config;
  _cleanupTimer : option Z;   (* the interval of the armed [setInterval] *)
  sink : list LogRecord        (* what the logger has been handed, oldest first *)
}.

Definition set_stores (c : list (string * CacheEntry)) (t : gmap string Timeout)
    (s : CacheService) : CacheService :=
  {| cache := c; timers := t; _config := _config s;
     _cleanupTimer := _cleanupTimer s; sink := sink s |}.

Definition set_config (c : Config) (s : CacheService) : CacheService :=
  {| cache := cache s; timers := timers s; _config := c;
     _cleanupTimer := _cleanupTimer s; sink := sink s |}.

Definition set_cleanupTimer (t : option Z) (s : CacheService) : CacheService :=
  {| cache := cache s; timers := timers s; _config := _config s;
     _cleanupTimer := t; sink := sink s |}.

Definition emit (r : LogRecord) (s : CacheService) : CacheService :=
  {| cache := cache s; timers := timers s; _config := _config s;
     _cleanupTimer := _cleanupTimer s; sink := sink s ++ [r] |}.

(** ** Construction and configuration *)

Definition default_config : Config :=
  {| defaultTTL := 300; maxSize := 1000; enableLogging := false;
     logger := None; cleanupInterval := 60000 |}.

(** [if (enableLogging && logger?.[level]) logger[level](message, metadata)] *)
Definition _log (level : LogLevel) (message : string) (metadata : jsobj)
    (s : CacheService) : CacheService :=
  match logger (_config s) with
  | Some l =>
      if enableLogging (_config s) && has_method l level
      then emit {| log_level := level; log_message := message;
                   log_metadata := metadata |} s
      else s
  | None => s
  end.

Definition _startCleanupTimer (s : CacheService) : CacheService :=
  if 0 <? cleanupInterval (_config s)
  then set_cleanupTimer (Some (cleanupInterval (_config s))) s
  else s.

Definition _stopCleanupTimer (s : CacheService) : CacheService :=
  match _cleanupTimer s with
  | Some _ => set_cleanupTimer None s
  | None => s
  end.

Definition num (n : nat) : jsval := JNum (Z.of_nat n).

(** [new CacheService(options)].  The constructor calls [logger.info]
    itself, without the check [_log] makes: a logger without that method
    makes the call a [TypeError]. *)
Definition constructor (options : Options) : Outcome CacheService :=
  let config := spread default_config options in
  let this :=
    _startCleanupTimer
      {| cache := []; timers := ∅; _config := config;
         _cleanupTimer := None; sink := [] |} in
  match logger config with
  | Some l =>
      if enableLogging config then
        if has_info l
        then Fulfilled
               (emit {| log_level := info;
                        log_message := "In-memory cache service initialized";
                        log_metadata := [("maxSize", JNum (maxSize config));
                                         ("defaultTTL", JNum (defaultTTL config))] |}
                     this)
        else Rejected (TypeError "this._config.logger.info is not a function")
      else Fulfilled this
  | None => Fulfilled this
  end.

Definition getConfig (s : CacheService) : Config := _config s.

Definition setConfig (options : Options) (s : CacheService) : CacheService :=
  let s1 := set_config (spread (_config s) options) s in
  match opt_cleanupInterval options with
  | Some _ => _startCleanupTimer (_stopCleanupTimer s1)
  | None => s1
  end.

Definition setDefaultTTL (ttl : Z) (s : CacheService) : CacheService :=
  set_config
    {| defaultTTL := ttl; maxSize := maxSize (_config s);
       enableLogging := enableLogging (_config s); logger := logger (_config s);
       cleanupInterval := cleanupInterval (_config s) |} s.

Definition getDefaultTTL (s : CacheService) : Z := defaultTTL (_config s).

Definition getMaxSize (s : CacheService) : Z := maxSize (_config s).

Definition setLogger (l : Logger) (s : CacheService) : CacheService :=
  set_config
    {| defaultTTL := defaultTTL (_config s); maxSize := maxSize (_config s);
       enableLogging := true; logger := Some l;
       cleanupInterval := cleanupInterval (_config s) |} s.

Definition setLoggingEnabled (enabled : bool) (s : CacheService) : CacheService :=
  set_config
    {| defaultTTL := defaultTTL (_config s); maxSize := maxSize (_config s);
       enableLogging := enabled; logger := logger (_config s);
       cleanupInterval := cleanupInterval (_config s) |} s.

(** ** Expiry tests *)

(** Truthiness of [entry.expires]: [null] and [0] are falsy. *)
Definition truthy (x : option Z) : bool :=
  match x with Some n => negb (n =? 0) | None => false end.

(** [expires && now > expires] *)
Definition lapsed (now : Z) (expires : option Z) : bool :=
  truthy expires && match expires with Some x => x <? now | None => false end.

(** [entry.expires && now > entry.expires] *)
Definition is_expired (now : Z) (entry : CacheEntry) : bool :=
  lapsed now (expires entry).

(** [if (this.timers.has(key)) { clearTimeout(...); this.timers.delete(key) }] *)
Definition cancel_timer (key : string) (t : gmap string Timeout) : gmap string Timeout :=
  match t !! key with
  | Some _ => delete key t
  | None => t
  end.

(** ** The sweep *)

(** The two stores and a removal counter, as the loops of [_cleanup]
    thread them. *)
Abbreviation stores := (list (string * CacheEntry) * gmap string Timeout * nat)%type.

(** [for (const [key, entry] of this.cache.entries()) if (expired) ...].
    The loop deletes nothing but the entry it is at, so the entries it
    visits are those present when it starts. *)
Fixpoint expire_loop (now : Z) (visit : list (string * CacheEntry)) (st : stores) : stores :=
  match visit with
  | [] => st
  | (key, entry) :: rest =>
      let '(c, t, count) := st in
      expire_loop now rest
        (if is_expired now entry
         then (Map_delete key c, cancel_timer key t, S count)
         else st)
  end.

(** [for (const [key] of toRemove) ...] *)
Fixpoint evict_loop (toRemove : list (string * CacheEntry)) (st : stores) : stores :=
  match toRemove with
  | [] => st
  | (key, _) :: rest =>
      let '(c, t, count) := st in
      evict_loop rest (Map_delete key c, cancel_timer key t, S count)
  end.

(** [(a, b) => a[1].created - b[1].created] *)
Definition by_created (a b : string * CacheEntry) : Z := created a.2 - created b.2.

(** [entries.slice(0, this.cache.size - this._config.maxSize)], evaluated
    only when that count is positive. *)
Definition toRemove (maxSize : Z) (c : list (string * CacheEntry)) : list (string * CacheEntry) :=
  take (Z.to_nat (Z.of_nat (length c) - maxSize)) (Array_sort by_created c).

Definition size_pass (maxSize : Z) (c : list (string * CacheEntry))
    (t : gmap string Timeout) : stores :=
  if maxSize <? Z.of_nat (length c)
  then evict_loop (toRemove maxSize c) (c, t, 0%nat)
  else (c, t, 0%nat).

Definition _cleanup (now : Z) (s : CacheService) : CacheService :=
  let beforeSize := length (cache s) in
  let '(c1, t1, expiredCount) := expire_loop now (cache s) (cache s, timers s, 0%nat) in
  let '(c2, t2, evictedCount) := size_pass (maxSize (_config s)) c1 t1 in
  let s' := set_stores c2 t2 s in
  let afterSize := length c2 in
  if (0 <? expiredCount)%nat || (0 <? evictedCount)%nat
  then _log debug "Cache cleanup completed"
         [("beforeSize", num beforeSize); ("afterSize", num afterSize);
          ("expiredCount", num expiredCount); ("evictedCount", num evictedCount)] s'
  else s'.

Definition setMaxSize (now : Z) (size : Z) (s : CacheService) : CacheService :=
  _cleanup now
    (set_config
       {| defaultTTL := defaultTTL (_config s); maxSize := size;
          enableLogging := enableLogging (_config s); logger := logger (_config s);
          cleanupInterval := cleanupInterval (_config s) |} s).

(** ** Store operations *)

Definition init (s : CacheService) : Outcome unit * CacheService :=
  (Fulfilled tt, _log info "In-memory cache service ready" [] s).

(** [entry.lastAccessed = now] *)
Definition touch (now : Z) (entry : CacheEntry) : CacheEntry :=
  {| data := data entry; created := created entry; lastAccessed := now;
     expires := expires entry |}.

(** [get(key)].  The entry is an object shared with the [Map]: assigning
    its [lastAccessed] changes the entry stored under [key], in place. *)
Definition get (now : Z) (key : string) (s : CacheService) : Outcome jsval * CacheService :=
  match Map_get key (cache s) with
  | None => (Fulfilled JNull, s)
  | Some entry =>
      if is_expired now entry
      then (Fulfilled JNull,
            set_stores (Map_delete key (cache s)) (cancel_timer key (timers s)) s)
      else (Fulfilled (data entry),
            set_stores (Map_set key (touch now entry) (cache s)) (timers s) s)
  end.

(** [set(key, data, ttl)]; [ttl = None] is the omitted argument, which
    takes the configured default. *)
Definition set (now : Z) (key : string) (value : jsval) (ttl : option Z) (roll : bool)
    (s : CacheService) : Outcome unit * CacheService :=
  let ttl := default (defaultTTL (_config s)) ttl in
  let expires := if 0 <? ttl then Some (now + ttl * 1000) else None in
  let t1 := cancel_timer key (timers s) in
  let c1 := Map_set key {| data := value; created := now; lastAccessed := now;
                           expires := expires |} (cache s) in
  let t2 := if truthy expires
            then <[key := {| armed_at := now; delay := ttl * 1000 |}]> t1
            else t1 in
  let s1 := set_stores c1 t2 s in
  (Fulfilled tt, if roll then _cleanup now s1 else s1).

Definition del (key : string) (s : CacheService) : Outcome bool * CacheService :=
  let existed := Map_has key (cache s) in
  (Fulfilled existed,
   set_stores (Map_delete key (cache s)) (cancel_timer key (timers s)) s).

Definition has (now : Z) (key : string) (s : CacheService) : Outcome bool * CacheService :=
  match get now key s with
  | (Fulfilled value, s') => (Fulfilled (not_null value), s')
  | (Rejected r, s') => (Rejected r, s')
  end.

Definition keys (now : Z) (s : CacheService) : Outcome (list string) * CacheService :=
  (Fulfilled
     (Map_keys (filter (λ kv, negb (truthy (expires kv.2)) || (now <=? default 0 (expires kv.2)))
                       (cache s))),
   s).

Definition clear (s : CacheService) : Outcome unit * CacheService :=
  let clearedCount := length (cache s) in
  (Fulfilled tt,
   _log info "In-memory cache cleared" [("clearedCount", num clearedCount)]
     (set_stores [] ∅ s)).

Definition destroy (s : CacheService) : CacheService :=
  _log info "Cache service destroyed" [] (set_stores [] ∅ (_stopCleanupTimer s)).

(** The callback armed by [set]: [() => { cache.delete(key); timers.delete(key) }].
    The runtime runs it once the handle is due, if it was not cancelled;
    every handle that is removed from [timers] is cancelled first, so the
    pending callbacks are those of the handles in [timers]. *)
Definition timer_callback (key : string) (s : CacheService) : CacheService :=
  set_stores (Map_delete key (cache s)) (delete key (timers s)) s.

Definition fire (now : Z) (key : string) (s : CacheService) : CacheService :=
  match timers s !! key with
  | Some t => if due t <=? now then timer_callback key s else s
  | None => s
  end.

(** The callback of [setInterval] armed by [_startCleanupTimer]. *)
Definition tick (now : Z) (s : CacheService) : CacheService :=
  match _cleanupTimer s with
  | Some _ => _cleanup now s
  | None => s
  end.

(** ** [getOrSet] *)

(** [error.message], [error.stack]: reading a property of [null] or
    [undefined] is a [TypeError]; of an object, its own property or
    [undefined]; of any other value [undefined] (neither name is defined
    on the prototypes of primitives and arrays). *)
Definition get_property (v : jsval) (name : string) : Outcome jsval :=
  match v with
  | JUndefined =>
      Rejected (TypeError ("Cannot read properties of undefined (reading '" +:+ name +:+ "')"))
  | JNull =>
      Rejected (TypeError ("Cannot read properties of null (reading '" +:+ name +:+ "')"))
  | JObj props => Fulfilled (default JUndefined (Map_get name props))
  | _ => Fulfilled JUndefined
  end.

Section GetOrSet.
(** The producer [queryFn] runs against whatever it reads and writes
    outside the cache: a state [W] of its own, which it transforms while
    it settles. *)
Context {W : Type}.

(** The [catch] block. *)
Definition getOrSet_catch (key : string) (err : jsval) (s : CacheService)
    : Outcome jsval * CacheService :=
  match get_property err "message" with
  | Rejected e => (Rejected e, s)
  | Fulfilled message =>
      match get_property err "stack" with
      | Rejected e => (Rejected e, s)
      | Fulfilled stack =>
          (Rejected err,
           _log error ("Error executing query for cache key " +:+ key)
             [("error", message); ("stack", stack)] s)
      end
  end.

(** [now] is the clock when [get] runs, [now'] when [set] runs, after
    the producer has settled. *)
Definition getOrSet (now now' : Z) (key : string)
    (queryFn : W → Outcome jsval * W) (ttl : option Z) (roll : bool)
    (sw : CacheService * W) : Outcome jsval * (CacheService * W) :=
  let '(s, w) := sw in
  let ttl := default (defaultTTL (_config s)) ttl in
  match get now key s with
  | (Rejected e, s1) => (Rejected e, (s1, w))
  | (Fulfilled cached, s1) =>
      if not_null cached then (Fulfilled cached, (s1, w))
      else
        match queryFn w with
        | (Fulfilled value, w') =>
            match set now' key value (Some ttl) roll s1 with
            | (Fulfilled _, s2) => (Fulfilled value, (s2, w'))
            | (Rejected e, s2) =>
                let '(r, s3) := getOrSet_catch key e s2 in (r, (s3, w'))
            end
        | (Rejected e, w') =>
            let '(r, s2) := getOrSet_catch key e s1 in (r, (s2, w'))
        end
  end.
End GetOrSet.

(** ** Histories *)

(** One step of the life of a service: a call of a method, or one of its
    timers running. *)
Inductive Op : Type :=
| OpInit
| OpGet (now : Z) (key : string)
| OpHas (now : Z) (key : string)
| OpKeys (now : Z)
| OpSet (now : Z) (key : string) (value : jsval) (ttl : option Z) (roll : bool)
| OpDel (key : string)
| OpClear
| OpGetOrSet (now now' : Z) (key : string) (produced : Outcome jsval)
    (ttl : option Z) (roll : bool)
| OpSetConfig (options : Options)
| OpSetDefaultTTL (ttl : Z)
| OpSetMaxSize (now : Z) (size : Z)
| OpSetLogger (l : Logger)
| OpSetLoggingEnabled (enabled : bool)
| OpTick (now : Z)
| OpFire (now : Z) (key : string)
| OpDestroy.

Definition step (op : Op) (s : CacheService) : CacheService :=
  match op with
  | OpInit => (init s).2
  | OpGet now key => (get now key s).2
  | OpHas now key => (has now key s).2
  | OpKeys now => (keys now s).2
  | OpSet now key value ttl roll => (set now key value ttl roll s).2
  | OpDel key => (del key s).2
  | OpClear => (clear s).2
  | OpGetOrSet now now' key produced ttl roll =>
      (getOrSet now now' key (λ w : unit, (produced, w)) ttl roll (s, tt)).2.1
  | OpSetConfig options => setConfig options s
  | OpSetDefaultTTL ttl => setDefaultTTL ttl s
  | OpSetMaxSize now size => setMaxSize now size s
  | OpSetLogger l => setLogger l s
  | OpSetLoggingEnabled enabled => setLoggingEnabled enabled s
  | OpTick now => tick now s
  | OpFire now key => fire now key s
  | OpDestroy => destroy s
  end.

Definition run (ops : list Op) (s : CacheService) : CacheService :=
  foldl (λ s op, step op s) s ops.

(** The clock readings an operation makes. *)
Definition op_times (op : Op) : list Z :=
  match op with
  | OpGet now _ | OpHas now _ | OpKeys now | OpSet now _ _ _ _
  | OpSetMaxSize now _ | OpTick now | OpFire now _ => [now]
  | OpGetOrSet now now' _ _ _ _ => [now; now']
  | _ => []
  end.

(** ** [generateKey] *)

(** *** Property order of ordinary objects

    [Object.keys] and [JSON.stringify] list the own properties whose name
    is an array index (a canonical decimal numeral below [2^32 - 1]) first,
    in ascending numeric order, and then the other names in the order the
    properties were created. *)

Definition digit_of (c : ascii) : option N :=
  let n := N_of_ascii c in
  if ((48 <=? n) && (n <=? 57))%N then Some (n - 48)%N else None.

Fixpoint parse_digits (s : string) (acc : N) : option N :=
  match s with
  | EmptyString => Some acc
  | String c s' =>
      match digit_of c with
      | Some d => parse_digits s' (10 * acc + d)%N
      | None => None
      end
  end.

Definition array_index (s : string) : option N :=
  match s with
  | EmptyString => None
  | String c s' =>
      if decide (c = "0"%char)
      then (if decide (s' = EmptyString) then Some 0%N else None)
      else match parse_digits s 0 with
           | Some n => if (n <? 2 ^ 32 - 1)%N then Some n else None
           | None => None
           end
  end.

Section OwnProperties.
Context {V : Type}.

Definition indexed (kv : string * V) : option (N * (string * V)) :=
  match array_index kv.1 with Some n => Some (n, kv) | None => None end.

Definition own_properties (o : list (string * V)) : list (string * V) :=
  (Array_sort (λ a b : N * (string * V), Z.of_N a.1 - Z.of_N b.1) (omap indexed o)).*2
  ++ filter (λ kv, array_index kv.1 = None) o.

(** [Object.keys(o)] *)
Definition Object_keys (o : list (string * V)) : list string := (own_properties o).*1.
End OwnProperties.

(** [o[key]] for a key that [o] owns *)
Definition obj_get (key : string) (o : jsobj) : jsval :=
  default JUndefined (Map_get key o).

(** [o[key] = v] on an object made by [{}]: the name [__proto__] is the
    accessor inherited from [Object.prototype], which creates no own
    property; any other name is created, or overwritten in place. *)
Definition obj_assign (key : string) (v : jsval) (o : jsobj) : jsobj :=
  if decide (key = "__proto__") then o else Map_set key v o.

(** *** [JSON.stringify] *)

Definition dquote : string := String "034"%char EmptyString.

Definition hex_digit (n : N) : ascii :=
  ascii_of_N (if (n <? 10)%N then 48 + n else 87 + n)%N.

Definition escape_char (c : ascii) : string :=
  let n := N_of_ascii c in
  if (n =? 34)%N then String "\"%char dquote
  else if (n =? 92)%N then "\\"
  else if (n =? 8)%N then "\b"
  else if (n =? 12)%N then "\f"
  else if (n =? 10)%N then "\n"
  else if (n =? 13)%N then "\r"
  else if (n =? 9)%N then "\t"
  else if (n <? 32)%N
       then "\u00" +:+ String (hex_digit (n / 16)) (String (hex_digit (n mod 16)) EmptyString)
  else String c EmptyString.

Fixpoint escape (s : string) : string :=
  match s with
  | EmptyString => EmptyString
  | String c s' => escape_char c +:+ escape s'
  end.

Definition quote (s : string) : string := dquote +:+ escape s +:+ dquote.

(** A property whose value serializes to [undefined] is left out. *)
Definition member (kv : string * option string) : option string :=
  match kv.2 with
  | Some text => Some (quote kv.1 +:+ ":" +:+ text)
  | None => None
  end.

(** [JSON.stringify(v)] without indentation; [None] is [undefined].
    Numbers are integers, printed in decimal. *)
Fixpoint JSON_stringify (v : jsval) : option string :=
  match v with
  | JUndefined => None
  | JNull => Some "null"
  | JBool b => Some (if b then "true" else "false")
  | JNum n => Some (pretty n)
  | JStr s => Some (quote s)
  | JArr items =>
      Some ("[" +:+
            String.concat ","
              ((fix each (l : list jsval) : list string :=
                  match l with
                  | [] => []
                  | x :: l' => default "null" (JSON_stringify x) :: each l'
                  end) items)
            +:+ "]")
  | JObj props =>
      Some ("{" +:+
            String.concat ","
              (omap member
                 (own_properties
                    ((fix each (l : jsobj) : list (string * option string) :=
                        match l with
                        | [] => []
                        | (k, x) :: l' => (k, JSON_stringify x) :: each l'
                        end) props)))
            +:+ "}")
  end.

Section GenerateKey.
(** [a.localeCompare(b)]: negative, zero or positive.  What it returns
    is decided by the collation of the runtime's locale, not by this
    code. *)
Variable localeCompare : string → string → Z.

(** [.reduce((result, key) => { result[key] = params[key]; return result }, {})] *)
Definition sortedParams (params : jsobj) : jsobj :=
  foldl (λ result key, obj_assign key (obj_get key params) result) []
    (Array_sort localeCompare (Object_keys params)).

Definition generateKey (endpoint : string) (params : jsobj) : string :=
  let sorted := sortedParams params in
  let paramString :=
    if (0 <? length (Object_keys sorted))%nat
    then ":" +:+ default "undefined" (JSON_stringify (JObj sorted))
    else "" in
  "api:" +:+ endpoint +:+ paramString.
End GenerateKey.

(** Comparison of strings by code units, a collation that tells any two
    different strings apart. *)
Definition ordinalCompare (a b : string) : Z :=
  match String.compare a b with Lt => -1 | Eq => 0 | Gt => 1 end.

(** What [localeCompare] does with canonically equivalent strings: the
    ECMAScript Internationalization API (ECMA-402, CompareStrings)
    requires the comparison to return 0 for them.  [compose] writes the
    letter e followed by the combining acute accent U+0301 (bytes CC 81 in
    a string of bytes) as the one character U+00E9 (bytes C3 A9), which is
    the same text; [canonicalCompare] compares what [compose] returns, so
    that the two spellings compare as equal. *)
Fixpoint compose (s : string) : string :=
  match s with
  | String "e" (String "204" (String "129" s')) =>
      String "195" (String "169" (compose s'))
  | String c s' => String c (compose s')
  | EmptyString => EmptyString
  end.

Definition canonicalCompare (a b : string) : Z :=
  ordinalCompare (compose a) (compose b).

(** The two spellings of e with an acute accent. *)
Definition e_acute_composed : string := String "195" (String "169" EmptyString).
Definition e_acute_combining : string :=
  String "e" (String "204" (String "129" EmptyString)).

(** ** Vocabulary of the statements *)

(** The service [new CacheService()] returns. *)
Definition fresh : CacheService :=
  {| cache := []; timers := ∅; _config := default_config;
     _cleanupTimer := Some 60000; sink := [] |}.

(** The entries of [c] under none of the keys [D], and the handles of [t]
    left when those of [D] are cancelled. *)
Definition without (D : list string) (c : list (string * CacheEntry))
    : list (string * CacheEntry) :=
  filter (λ kv, kv.1 ∉ D) c.

Definition cancel_all (D : list string) (t : gmap string Timeout) : gmap string Timeout :=
  foldl (λ t key, cancel_timer key t) t D.

(** The keys of the entries of [c] that have expired at [now]. *)
Definition expired_keys (now : Z) (c : list (string * CacheEntry)) : list string :=
  Map_keys (filter (λ kv, is_expired now kv.2) c).

(** What the two stores hold under [key]. *)
Definition view (key : string) (s : CacheService) : option CacheEntry * option Timeout :=
  (Map_get key (cache s), timers s !! key).

(** [e'] is [e] but for the time of its last access. *)
Definition same_entry (e e' : CacheEntry) : Prop :=
  data e' = data e ∧ created e' = created e ∧ expires e' = expires e.

(** The store is a [Map] that holds [value] under [key], to expire as
    [x] says, and the handle [h] for it. *)
Definition holds (key : string) (value : jsval) (x : option Z) (h : option Timeout)
    (s : CacheService) : Prop :=
  Map_wf (cache s)
  ∧ (∃ e, Map_get key (cache s) = Some e ∧ data e = value ∧ expires e = x)
  ∧ timers s !! key = h.

(** The order a comparator stands for: [a] need not come after [b]. *)
Definition le_by {A : Type} (cmp : A → A → Z) (a b : A) : Prop := cmp a b <= 0.

(** The comparator tells the names of [params] apart: no two different
    names compare as equal. *)
Definition told_apart (cmp : string → string → Z) (params : jsobj) : Prop :=
  ∀ a b, a ∈ params.*1 → b ∈ params.*1 → le_by cmp a b → le_by cmp b a → a = b.

(** The keys the size-based pass of a sweep at [now] removes from [s]. *)
Definition size_victims (now : Z) (s : CacheService) : list string :=
  let '(c1, _, _) := expire_loop now (cache s) (cache s, timers s, 0%nat) in
  if maxSize (_config s) <? Z.of_nat (length c1)
  then Map_keys (toRemove (maxSize (_config s)) c1)
  else [].

(** An operation up to the sweep it may end with, and the clock reading
    of that sweep when it runs one ([step_sweep] below). *)
Definition presweep (op : Op) (s : CacheService) : CacheService :=
  match op with
  | OpSet now key value ttl _ => (set now key value ttl false s).2
  | OpGetOrSet now now' key produced ttl _ =>
      step (OpGetOrSet now now' key produced ttl false) s
  | OpSetMaxSize _ size =>
      set_config
        {| defaultTTL := defaultTTL (_config s); maxSize := size;
           enableLogging := enableLogging (_config s); logger := logger (_config s);
           cleanupInterval := cleanupInterval (_config s) |} s
  | OpTick _ => s
  | _ => step op s
  end.

Definition sweeps (op : Op) (s : CacheService) : option Z :=
  match op with
  | OpSet now _ _ _ true => Some now
  | OpGetOrSet now now' key (Fulfilled _) _ true =>
      match (get now key s).1 with
      | Fulfilled cached => if not_null cached then None else Some now'
      | Rejected _ => None
      end
  | OpSetMaxSize now _ => Some now
  | OpTick now => match _cleanupTimer s with Some _ => Some now | None => None end
  | _ => None
  end.

(** The sweep of [op], if it runs one, does not evict [key] for size. *)
Definition sweep_spares (key : string) (op : Op) (s : CacheService) : bool :=
  match sweeps op s with
  | Some now => bool_decide (key ∉ size_victims now (presweep op s))
  | None => true
  end.

(** [op] is a call that stores under [key], or may. *)
Definition rewrites (key : string) (op : Op) : bool :=
  match op with
  | OpSet _ k _ _ _ | OpGetOrSet _ _ k _ _ _ => bool_decide (k = key)
  | _ => false
  end.

(** [op] deletes [key] explicitly. *)
Definition deletes (key : string) (op : Op) : bool :=
  match op with
  | OpDel k => bool_decide (k = key)
  | OpClear | OpDestroy => true
  | _ => false
  end.

(** Along [ops], started in [s], [key] is neither stored again, nor
    deleted explicitly, nor evicted for size. *)
Fixpoint undisturbed (key : string) (ops : list Op) (s : CacheService) : bool :=
  match ops with
  | [] => true
  | op :: ops' =>
      negb (rewrites key op) && negb (deletes key op) && sweep_spares key op s
      && undisturbed key ops' (step op s)
  end.

(** The timer of [key] does not run in [op]. *)
Definition not_fired (key : string) (op : Op) : bool :=
  match op with
  | OpFire _ k => negb (bool_decide (k = key))
  | _ => true
  end.

(** Invariant I1: a key with a pending timer has an entry. *)
Definition I1 (s : CacheService) : Prop :=
  ∀ key, is_Some (timers s !! key) → key ∈ Map_keys (cache s).

(** ** Statistics *)

(** The literal [0.85], as the rational it writes. *)
Definition _calculateHitRatio (s : CacheService) : QArith_base.Q :=
  if (0 <? length (cache s))%nat
  then QArith_base.Qmake 85 100
  else QArith_base.Qmake 0 1.

Record Stats : Type := {
  stats_size : nat;
  stats_maxSize : Z;
  stats_timers : nat;
  stats_expired : nat;
  stats_hitRatio : QArith_base.Q
}.

(** [for (const entry of this.cache.values()) if (expired) expiredCount++] *)
Definition count_expired (now : Z) (c : list (string * CacheEntry)) : nat :=
  foldl (λ expiredCount kv, if is_expired now kv.2 then S expiredCount else expiredCount)
    0%nat c.

Definition getStats (now : Z) (s : CacheService) : Stats :=
  {| stats_size := length (cache s);
     stats_maxSize := maxSize (_config s);
     stats_timers := size (timers s);
     stats_expired := count_expired now (cache s);
     stats_hitRatio := _calculateHitRatio s |}.

(** ** The controller's use of the cache

    [BaseController] ([lib/controller.js]): its configuration, its
    [_log], [sendError], and the rate limiting middleware that
    [createRateLimit] builds over a cache. *)

Record ControllerConfig : Type := {
  ctl_enableLogging : bool;
  ctl_logger : option Logger;
  includeStackTrace : bool;
  defaultPaginationLimit : Z;
  maxPaginationLimit : Z
}.

(** A controller: its configuration, and what its logger has been handed. *)
Record BaseController : Type := {
  ctl_config : ControllerConfig;
  ctl_sink : list LogRecord
}.

Definition ctl_log (level : LogLevel) (message : string) (metadata : jsobj)
    (this : BaseController) : BaseController :=
  match ctl_logger (ctl_config this) with
  | Some l =>
      if ctl_enableLogging (ctl_config this) && has_method l level
      then {| ctl_config := ctl_config this;
              ctl_sink := (ctl_sink this
                           ++ [{| log_level := level; log_message := message;
                                  log_metadata := metadata |}])%list |}
      else this
  | None => this
  end.

(** Truthiness of a value. *)
Definition js_truthy (v : jsval) : bool :=
  match v with
  | JUndefined | JNull => false
  | JBool b => b
  | JNum n => negb (n =? 0)
  | JStr s => negb (bool_decide (s = EmptyString))
  | JArr _ | JObj _ => true
  end.

(** [{ ...base, ...details }] in an object literal: each own property of
    [details], in the order [Object.keys] lists them, is defined on the
    new object, in place of a property of that name if there is one. *)
Definition spread_into (base details : jsobj) : jsobj :=
  foldl (λ o kv, Map_set kv.1 kv.2 o) base (own_properties details).

(** What a middleware does with the request: pass it on, or answer it.
    The response and [next] are those of Express and do not throw:
    [next()] is [Next], [res.status(statusCode).json(body)] is
    [Send statusCode body]. *)
Inductive Reply : Type :=
| Next
| Send (statusCode : Z) (body : jsval).

Section Controller.
(** [new Date(now).toISOString()], the runtime's rendering of an instant. *)
Variable toISOString : Z → string.

(** [sendError(res, message, statusCode, details)]: the body it hands to
    [res.status(statusCode).json], and the controller it leaves. *)
Definition sendError (now : Z) (message : string) (statusCode : Z) (details : jsobj)
    (this : BaseController) : Reply * BaseController :=
  let error0 :=
    spread_into [("message", JStr message); ("code", JNum statusCode);
                 ("timestamp", JStr (toISOString now))] details in
  let error1 :=
    if includeStackTrace (ctl_config this) && js_truthy (obj_get "stack" details)
    then obj_assign "stack" (obj_get "stack" details) error0
    else error0 in
  let response := JObj [("success", JBool false); ("error", JObj error1)] in
  (Send statusCode response,
   ctl_log error ("API Error: " +:+ message)
     [("statusCode", JNum statusCode); ("details", JObj details);
      ("stack", obj_get "stack" details)] this).

(** The [error] that [handleDbError] is given, as its JSDoc types it: an
    [Error], whose [message] is a string; [stack] and [code] are what
    reading those properties gives, [undefined] when there is none. *)
Record DbError : Type := {
  err_message : string;
  err_stack : jsval;
  err_code : jsval
}.

(** [handleDbError(res, error, operation)].  The details are
    [{ operation, code: error.code, ...(includeStackTrace && { stack: error.stack }) }]:
    spreading [false] adds nothing. *)
Definition handleDbError (now : Z) (err : DbError) (operation : string)
    (this : BaseController) : Reply * BaseController :=
  let this1 :=
    ctl_log error ("Database error during " +:+ operation)
      [("error", JStr (err_message err)); ("stack", err_stack err)] this in
  let message :=
    if includeStackTrace (ctl_config this) then err_message err
    else "Database error occurred" in
  let details :=
    ([("operation", JStr operation); ("code", err_code err)]
     ++ (if includeStackTrace (ctl_config this) then [("stack", err_stack err)] else []))%list in
  sendError now message 500 details this1.

(** [Math.ceil(windowMs / 1000)] *)
Definition window_seconds (windowMs : Z) : Z := - ((- windowMs) / 1000).

(** The options of [createRateLimit] that the middleware reads, after the
    defaults: 15 minutes, 100 requests. *)
Record RateLimitOptions : Type := {
  opt_windowMs : option Z;
  opt_maxRequests : option Z
}.

Definition windowMs (options : RateLimitOptions) : Z :=
  default (15 * 60 * 1000) (opt_windowMs options).

Definition maxRequests (options : RateLimitOptions) : Z :=
  default 100 (opt_maxRequests options).

(** What the middleware takes from the request and from the runtime.
    - [keyOf req]: the text that the template literal makes of what
      [config.keyGenerator(req)] returns, or what the two throw.
    - [at_least v n]: [v >= n] for a value [v] and a number [n].
    - [plus_one v]: [v + 1]. *)
Context {Req : Type}.
Variable keyOf : Req → Outcome string.
Variable at_least : jsval → Z → bool.
Variable plus_one : jsval → jsval.

(** The [catch] block of the middleware. *)
Definition rateLimit_catch (err : jsval) (c : CacheService) (this : BaseController)
    : Outcome Reply * (CacheService * BaseController) :=
  match get_property err "message" with
  | Rejected e => (Rejected e, (c, this))
  | Fulfilled message =>
      (Fulfilled Next,
       (c, ctl_log warn "Rate limiting failed" [("error", message)] this))
  end.

(** The middleware [createRateLimit(cache, options)] returns, run on one
    request: [now] is the clock when it reads the cache, [now'] when it
    writes it or answers. *)
Definition rateLimit (options : RateLimitOptions) (now now' : Z) (roll : bool) (req : Req)
    (st : CacheService * BaseController)
    : Outcome Reply * (CacheService * BaseController) :=
  let '(c, this) := st in
  match keyOf req with
  | Rejected e => rateLimit_catch e c this
  | Fulfilled id =>
      let key := "rateLimit:" +:+ id in
      match get now key c with
      | (Rejected e, c1) => rateLimit_catch e c1 this
      | (Fulfilled cached, c1) =>
          let current := if js_truthy cached then cached else JNum 0 in
          if at_least current (maxRequests options)
          then
            let '(reply, this1) :=
              sendError now' "Too many requests" 429
                [("retryAfter", JNum (window_seconds (windowMs options)))] this in
            (Fulfilled reply, (c1, this1))
          else
            match set now' key (plus_one current)
                    (Some (window_seconds (windowMs options))) roll c1 with
            | (Fulfilled _, c2) => (Fulfilled Next, (c2, this))
            | (Rejected e, c2) => rateLimit_catch e c2 this
            end
      end
  end.

End Controller.

(** An instance of the two operators, as JavaScript has them on numbers
    and booleans.  It is not meant for other values, which it leaves as
    they are. *)
Definition number_at_least (v : jsval) (n : Z) : bool :=
  match v with
  | JNum m => n <=? m
  | JBool b => n <=? (if b then 1 else 0)
  | _ => false
  end.

Definition number_plus_one (v : jsval) : jsval :=
  match v with
  | JNum m => JNum (m + 1)
  | JBool b => JNum ((if b then 1 else 0) + 1)
  | _ => v
  end.

(** ** Vocabulary of the further statements *)

(** The handle of a key belongs to its entry: it was armed when the entry
    was created, for the time the entry has to live; and an entry has a
    handle exactly when it has an expiry time. *)
Definition linked (v : option CacheEntry * option Timeout) : Prop :=
  match v with
  | (None, None) => True
  | (None, Some _) => False
  | (Some e, None) => truthy (expires e) = false
  | (Some e, Some h) =>
      truthy (expires e) = true
      ∧ armed_at h = created e
      ∧ expires e = Some (armed_at h + delay h)
  end.

(** The store has room for an entry under [key]: with it, the store is
    within its size bound. *)
Definition room_for (key : string) (s : CacheService) : Prop :=
  Z.of_nat (length (cache s)) + (if Map_has key (cache s) then 0 else 1)
  <= maxSize (_config s).


(** Two stores hold the same keys in the same order and, under each, the
    same entry but for the time of its last access. *)
Definition same_but_access (c c' : list (string * CacheEntry)) : Prop :=
  Forall2 (λ kv kv', kv.1 = kv'.1 ∧ same_entry kv.2 kv'.2) c c'.

(** [op] arms the periodic sweep: a [setConfig] that gives a positive
    [cleanupInterval]. *)
Definition rearms (op : Op) : bool :=
  match op with
  | OpSetConfig options =>
      match opt_cleanupInterval options with Some i => 0 <? i | None => false end
  | _ => false
  end.

(** [op] is a call of [destroy]. *)
Definition destroys (op : Op) : bool :=
  match op with OpDestroy => true | _ => false end.

(** * Properties *)

(** A property of every element of a list that is written out. *)
Ltac each_of_list tac :=
  repeat first [apply Forall_nil_2 | apply Forall_cons_2; [cbv beta; tac|]].

Ltac times_bounded :=
  each_of_list ltac:(let now := fresh "now" in let H := fresh "H" in
                     intros now H; simpl in H; set_unfold; lia).

(** ** The [Map] operations *)

Section JsMapFacts.
Context {V : Type}.
Implicit Types (m : list (string * V)) (key k : string) (v : V).

Lemma Map_get_None key m : Map_get key m = None ↔ key ∉ Map_keys m.
Proof.
  unfold Map_keys. induction m as [|[k w] m IH]; simpl.
  - split; [intros _; apply not_elem_of_nil | done].
  - rewrite not_elem_of_cons. case_decide; subst.
    + split; [done | intros [Hc _]; exfalso; by apply Hc].
    + rewrite IH. split; [intros; split; [congruence | done] | by intros [_ ?]].
Qed.

Lemma Map_get_Some_elem key v m : Map_get key m = Some v → (key, v) ∈ m.
Proof.
  induction m as [|[k w] m IH]; simpl; [done|].
  case_decide; subst.
  - intros [= ->]. apply list_elem_of_here.
  - intros. apply list_elem_of_further; auto.
Qed.

Lemma Map_get_elem key v m : Map_wf m → (key, v) ∈ m → Map_get key m = Some v.
Proof.
  unfold Map_wf, Map_keys. induction m as [|[k w] m IH]; simpl.
  - intros _ H. by apply elem_of_nil in H.
  - rewrite NoDup_cons. intros [Hk Hm] [Heq | Hin]%elem_of_cons.
    + injection Heq as -> ->. by rewrite decide_True.
    + case_decide; subst.
      * exfalso. apply Hk. apply list_elem_of_fmap. by exists (key, v).
      * auto.
Qed.

Lemma Map_has_true key m : Map_has key m = true ↔ key ∈ Map_keys m.
Proof.
  unfold Map_has. destruct (Map_get key m) eqn:E.
  - split; [intros _ | done].
    destruct (decide (key ∈ Map_keys m)) as [|Hn]; [done|].
    apply Map_get_None in Hn. congruence.
  - apply Map_get_None in E. split; [done | intros; contradiction].
Qed.

Lemma Map_get_set key k v m :
  Map_get k (Map_set key v m) = if decide (key = k) then Some v else Map_get k m.
Proof.
  induction m as [|[k' w] m IH]; simpl.
  - repeat case_decide; congruence.
  - repeat (case_decide; simpl; subst); try congruence.
Qed.

Lemma Map_get_delete key k m :
  Map_get k (Map_delete key m) = if decide (key = k) then None else Map_get k m.
Proof.
  unfold Map_delete. induction m as [|[k' w] m IH]; simpl.
  - by case_decide.
  - rewrite filter_cons. simpl. repeat (case_decide; simpl; subst); try congruence.
Qed.

Lemma Map_keys_set key v m k :
  k ∈ Map_keys (Map_set key v m) ↔ k = key ∨ k ∈ Map_keys m.
Proof.
  destruct (decide (k ∈ Map_keys (Map_set key v m))) as [Hin | Hn].
  - split; [intros _ | done].
    destruct (decide (k = key)) as [|Hne]; [by left | right].
    destruct (decide (k ∈ Map_keys m)) as [|Hn]; [done|].
    apply Map_get_None in Hn. exfalso.
    assert (Map_get k (Map_set key v m) = None) as E
      by (rewrite Map_get_set, decide_False; done).
    by apply Map_get_None in E.
  - split; [done|]. intros H. exfalso. apply Hn.
    destruct (decide (k ∈ Map_keys (Map_set key v m))) as [|Hn']; [done|].
    apply Map_get_None in Hn'. rewrite Map_get_set in Hn'.
    case_decide; [done|]. apply Map_get_None in Hn'. destruct H; done.
Qed.

Lemma Map_keys_delete key m k :
  k ∈ Map_keys (Map_delete key m) ↔ k ≠ key ∧ k ∈ Map_keys m.
Proof.
  unfold Map_keys, Map_delete. rewrite !list_elem_of_fmap. split.
  - intros [[k' w] [-> [Hne Hin]%list_elem_of_filter]]. simpl in *.
    split; [done|]. by exists (k', w).
  - intros [Hne [[k' w] [-> Hin]]]. exists (k', w). split; [done|].
    by apply list_elem_of_filter.
Qed.

Lemma Map_wf_set key v m : Map_wf m → Map_wf (Map_set key v m).
Proof.
  unfold Map_wf. induction m as [|[k w] m IH]; simpl.
  - intros _. apply NoDup_singleton.
  - unfold Map_keys in *. simpl. rewrite NoDup_cons. intros [Hk Hm].
    case_decide; simpl; subst.
    + by apply NoDup_cons.
    + apply NoDup_cons. split; [|auto].
      intros [Heq | Hin]%(Map_keys_set key v m k); [done | by apply Hk].
Qed.

Lemma Map_wf_filter (P : string * V → Prop) `{!∀ x, Decision (P x)} m :
  Map_wf m → Map_wf (filter P m).
Proof.
  unfold Map_wf, Map_keys. induction m as [|[k w] m IH]; simpl; [done|].
  rewrite NoDup_cons. intros [Hk Hm]. rewrite filter_cons.
  case_decide; [|auto]. simpl. apply NoDup_cons. split; [|auto].
  intros [[k' w'] [Heq [_ Hin]%list_elem_of_filter]]%list_elem_of_fmap.
  simpl in Heq; subst. apply Hk. apply list_elem_of_fmap. by exists (k', w').
Qed.

Lemma Map_wf_delete key m : Map_wf m → Map_wf (Map_delete key m).
Proof. apply Map_wf_filter. Qed.
End JsMapFacts.

(** ** The two loops of the sweep *)

Lemma cancel_timer_delete key t : cancel_timer key t = delete key t.
Proof.
  unfold cancel_timer. destruct (t !! key) eqn:E; [done|].
  symmetry. by apply delete_id.
Qed.

Lemma cancel_all_lookup D t k :
  cancel_all D t !! k = if decide (k ∈ D) then None else t !! k.
Proof.
  unfold cancel_all. revert t. induction D as [|d D IH]; intros t; simpl.
  - destruct (decide (k ∈ [])) as [Hin | _]; [by apply elem_of_nil in Hin | done].
  - rewrite IH, cancel_timer_delete, lookup_delete.
    destruct (decide (k ∈ D)) as [Hin | Hn];
      destruct (decide (d = k)) as [Heq | Hne];
      destruct (decide (k ∈ d :: D)) as [Hin' | Hn']; try done.
    + exfalso. apply Hn'. by apply list_elem_of_further.
    + exfalso. apply Hn'. by apply list_elem_of_further.
    + exfalso. apply Hn'. subst. apply list_elem_of_here.
    + apply elem_of_cons in Hin' as [-> | Hin']; done.
Qed.

Lemma without_nil c : without [] c = c.
Proof.
  unfold without. induction c as [|kv c IH]; [done|].
  rewrite filter_cons_True; [by rewrite IH | apply not_elem_of_nil].
Qed.

Lemma without_cons key D c : without D (Map_delete key c) = without (key :: D) c.
Proof.
  unfold without, Map_delete. rewrite list_filter_filter.
  apply list_filter_iff. intros kv. rewrite not_elem_of_cons. tauto.
Qed.

Lemma Map_get_without D c k :
  Map_get k (without D c) = if decide (k ∈ D) then None else Map_get k c.
Proof.
  unfold without. induction c as [|[k' e] c IH]; simpl.
  - by case_decide.
  - rewrite filter_cons. simpl.
    repeat (case_decide; simpl; subst); try congruence; try done.
Qed.

Lemma Map_keys_without D c k :
  k ∈ Map_keys (without D c) ↔ (k ∉ D) ∧ (k ∈ Map_keys c).
Proof.
  unfold Map_keys, without. rewrite !list_elem_of_fmap. split.
  - intros [[k' e] [-> Hf]]. apply list_elem_of_filter in Hf as [Hn Hin].
    simpl in *. split; [done|]. by exists (k', e).
  - intros [Hn [[k' e] [-> Hin]]]. exists (k', e). split; [done|].
    by apply list_elem_of_filter.
Qed.

Lemma expire_loop_eq now visit c t n :
  expire_loop now visit (c, t, n)
  = (without (expired_keys now visit) c, cancel_all (expired_keys now visit) t,
     (n + length (expired_keys now visit))%nat).
Proof.
  unfold expired_keys, Map_keys.
  revert c t n. induction visit as [|[key entry] visit IH]; intros c t n; simpl.
  - rewrite without_nil. unfold cancel_all. simpl. by rewrite Nat.add_0_r.
  - rewrite filter_cons. simpl. case_decide as He.
    + destruct (is_expired now entry); [|destruct He]. simpl.
      rewrite IH, without_cons. simpl. by rewrite Nat.add_succ_r.
    + destruct (is_expired now entry); [destruct He; exact I|]. apply IH.
Qed.

Lemma evict_loop_eq rm c t n :
  evict_loop rm (c, t, n)
  = (without (Map_keys rm) c, cancel_all (Map_keys rm) t, (n + length rm)%nat).
Proof.
  unfold Map_keys.
  revert c t n. induction rm as [|[key entry] rm IH]; intros c t n; simpl.
  - rewrite without_nil. unfold cancel_all. simpl. by rewrite Nat.add_0_r.
  - rewrite IH, without_cons. simpl. by rewrite Nat.add_succ_r.
Qed.

Lemma filter_iff_elem {A} (P Q : A → Prop) `{!∀ x, Decision (P x)}
    `{!∀ x, Decision (Q x)} (l : list A) :
  (∀ x, x ∈ l → P x ↔ Q x) → filter P l = filter Q l.
Proof.
  induction l as [|x l IH]; intros Hl; [done|].
  rewrite !filter_cons.
  rewrite IH by (intros y Hy; apply Hl; by apply list_elem_of_further).
  pose proof (Hl x (list_elem_of_here x l)) as Hx.
  destruct (decide (P x)), (decide (Q x)); tauto.
Qed.

(** On a [Map] the expiry pass keeps exactly the entries that have not
    expired. *)
Lemma without_expired now c :
  Map_wf c → without (expired_keys now c) c = filter (λ kv, ¬ is_expired now kv.2) c.
Proof.
  intros Hwf. unfold without. apply filter_iff_elem.
  intros [k e] Hin. simpl. unfold expired_keys, Map_keys.
  rewrite list_elem_of_fmap. split.
  - intros Hn He. apply Hn. exists (k, e). split; [done|].
    by apply list_elem_of_filter.
  - intros He [[k' e'] [-> Hf]]. apply list_elem_of_filter in Hf as [He' Hin'].
    simpl in *. apply (Map_get_elem _ _ _ Hwf) in Hin, Hin'. congruence.
Qed.

(** ** Sorting *)

Section ArraySortFacts.
Context {A : Type} (cmp : A → A → Z).

Lemma sort_insert_perm x l : sort_insert cmp x l ≡ₚ x :: l.
Proof.
  induction l as [|y l IH]; simpl; [done|].
  destruct (cmp x y <=? 0); [done|].
  rewrite IH. apply perm_swap.
Qed.

Lemma Array_sort_perm l : Array_sort cmp l ≡ₚ l.
Proof.
  induction l as [|x l IH]; simpl; [done|].
  by rewrite sort_insert_perm, IH.
Qed.

Lemma Array_sort_length l : length (Array_sort cmp l) = length l.
Proof. apply Permutation_length, Array_sort_perm. Qed.

Lemma StronglySorted_weaken (R1 R2 : relation A) l :
  (∀ a b, R1 a b → R2 a b) → StronglySorted R1 l → StronglySorted R2 l.
Proof.
  intros HR. induction 1 as [|x l Hl IH Hx]; constructor; [done|].
  eapply Forall_impl; [exact Hx | apply HR].
Qed.

(** A list already in order is left as it is: the sort is stable. *)
Lemma Array_sort_sorted_id l : StronglySorted (le_by cmp) l → Array_sort cmp l = l.
Proof.
  induction 1 as [|x l Hl IH Hx]; simpl; [done|].
  rewrite IH. destruct l as [|y l]; simpl; [done|].
  apply Forall_cons in Hx as [Hxy _]. unfold le_by in Hxy.
  apply Z.leb_le in Hxy. by rewrite Hxy.
Qed.

Section Consistent.
(** A consistent comparator: any two elements compare one way or the
    other, transitively. *)
Hypothesis cmp_total : ∀ a b, le_by cmp a b ∨ le_by cmp b a.
Hypothesis cmp_trans : ∀ a b c, le_by cmp a b → le_by cmp b c → le_by cmp a c.

Lemma sort_insert_sorted x l :
  Sorted (le_by cmp) l → Sorted (le_by cmp) (sort_insert cmp x l).
Proof.
  induction 1 as [|y l Hl IH Hy]; simpl.
  - repeat constructor.
  - destruct (cmp x y <=? 0) eqn:E.
    + apply Z.leb_le in E. repeat constructor; done.
    + apply Z.leb_gt in E. constructor; [done|].
      assert (le_by cmp y x) as Hyx
        by (destruct (cmp_total x y) as [H|H]; [unfold le_by in H; lia | done]).
      destruct l as [|z l]; simpl in *.
      * by constructor.
      * destruct (cmp x z <=? 0); constructor; [done|].
        by inversion Hy.
Qed.

Lemma Array_sort_sorted l : Sorted (le_by cmp) (Array_sort cmp l).
Proof.
  induction l as [|x l IH]; simpl; [constructor|].
  by apply sort_insert_sorted.
Qed.

Lemma Array_sort_strongly_sorted l : StronglySorted (le_by cmp) (Array_sort cmp l).
Proof.
  apply Sorted_StronglySorted; [|apply Array_sort_sorted].
  intros a b c. apply cmp_trans.
Qed.

(** Insertions of two elements that the comparator tells apart commute;
    two it does not tell apart stay in the order they came in. *)
Lemma sort_insert_comm x y l :
  (le_by cmp x y → le_by cmp y x → x = y) →
  sort_insert cmp x (sort_insert cmp y l) = sort_insert cmp y (sort_insert cmp x l).
Proof.
  intros Hxy.
  assert (∀ a b, (cmp a b <=? 0) = false → le_by cmp b a) as Hgt.
  { intros a b E. apply Z.leb_gt in E.
    destruct (cmp_total a b) as [H|H]; [unfold le_by in H; lia | done]. }
  assert ((cmp x y <=? 0) = true → (cmp y x <=? 0) = true → x = y) as Hxy'.
  { intros ?%Z.leb_le ?%Z.leb_le. by apply Hxy. }
  assert (∀ z, (cmp x y <=? 0) = true → (cmp y z <=? 0) = true →
               (cmp x z <=? 0) = true) as Htxy.
  { intros z ?%Z.leb_le ?%Z.leb_le. apply Z.leb_le. by eapply cmp_trans. }
  assert (∀ z, (cmp y x <=? 0) = true → (cmp x z <=? 0) = true →
               (cmp y z <=? 0) = true) as Htyx.
  { intros z ?%Z.leb_le ?%Z.leb_le. apply Z.leb_le. by eapply cmp_trans. }
  induction l as [|z l IH]; simpl.
  - destruct (cmp x y <=? 0) eqn:Exy, (cmp y x <=? 0) eqn:Eyx; try done.
    + by rewrite (Hxy' eq_refl eq_refl).
    + apply Hgt in Exy. unfold le_by in Exy. apply Z.leb_le in Exy. congruence.
  - destruct (cmp y z <=? 0) eqn:Eyz, (cmp x z <=? 0) eqn:Exz; simpl;
      rewrite ?Eyz, ?Exz;
      destruct (cmp x y <=? 0) eqn:Exy, (cmp y x <=? 0) eqn:Eyx;
      simpl; rewrite ?Eyz, ?Exz; try done.
    + by rewrite (Hxy' eq_refl eq_refl).
    + apply Hgt in Exy. unfold le_by in Exy. apply Z.leb_le in Exy. congruence.
    + rewrite (Htxy z eq_refl Eyz) in Exz. done.
    + rewrite (Htxy z eq_refl Eyz) in Exz. done.
    + rewrite (Htyx z eq_refl Exz) in Eyz. done.
    + rewrite (Htyx z eq_refl Exz) in Eyz. done.
    + by rewrite IH.
    + by rewrite IH.
    + by rewrite IH.
    + by rewrite IH.
Qed.

(** The sort depends on the order of its input only through the elements
    the comparator does not tell apart. *)
Lemma Array_sort_Permutation l1 l2 :
  l1 ≡ₚ l2 →
  (∀ a b, a ∈ l1 → b ∈ l1 → le_by cmp a b → le_by cmp b a → a = b) →
  Array_sort cmp l1 = Array_sort cmp l2.
Proof.
  induction 1 as [|x l1 l2 Hp IH|x y l|l1 l2 l3 Hp1 IH1 Hp2 IH2]; intros Hsep.
  - done.
  - simpl. rewrite IH; [done|].
    intros a b Ha Hb. apply Hsep; by apply list_elem_of_further.
  - simpl. apply sort_insert_comm.
    apply Hsep; [|apply list_elem_of_further]; apply list_elem_of_here.
  - rewrite IH1 by done. apply IH2.
    intros a b Ha Hb. apply Hsep; by rewrite Hp1.
Qed.
End Consistent.
End ArraySortFacts.

(** ** The sweep *)

Lemma log_cache level message metadata s :
  cache (_log level message metadata s) = cache s.
Proof. unfold _log. destruct (logger _); [destruct (_ && _)|]; done. Qed.

Lemma log_timers level message metadata s :
  timers (_log level message metadata s) = timers s.
Proof. unfold _log. destruct (logger _); [destruct (_ && _)|]; done. Qed.

Lemma log_config level message metadata s :
  _config (_log level message metadata s) = _config s.
Proof. unfold _log. destruct (logger _); [destruct (_ && _)|]; done. Qed.

Lemma log_cleanupTimer level message metadata s :
  _cleanupTimer (_log level message metadata s) = _cleanupTimer s.
Proof. unfold _log. destruct (logger _); [destruct (_ && _)|]; done. Qed.

Lemma cleanup_cache now s :
  cache (_cleanup now s)
  = without (size_victims now s) (without (expired_keys now (cache s)) (cache s)).
Proof.
  unfold _cleanup, size_victims. rewrite expire_loop_eq. unfold size_pass.
  destruct (maxSize (_config s) <? _).
  - rewrite evict_loop_eq. destruct (_ || _); by rewrite ?log_cache.
  - rewrite without_nil. destruct (_ || _); by rewrite ?log_cache.
Qed.

Lemma cleanup_timers now s :
  timers (_cleanup now s)
  = cancel_all (size_victims now s) (cancel_all (expired_keys now (cache s)) (timers s)).
Proof.
  unfold _cleanup, size_victims. rewrite expire_loop_eq. unfold size_pass.
  destruct (maxSize (_config s) <? _).
  - rewrite evict_loop_eq. destruct (_ || _); by rewrite ?log_timers.
  - destruct (_ || _); by rewrite ?log_timers.
Qed.

Lemma cleanup_config now s : _config (_cleanup now s) = _config s.
Proof.
  unfold _cleanup. rewrite expire_loop_eq.
  destruct (size_pass _ _ _) as [[c2 t2] n2].
  destruct (_ || _); by rewrite ?log_config.
Qed.

Lemma cleanup_cleanupTimer now s : _cleanupTimer (_cleanup now s) = _cleanupTimer s.
Proof.
  unfold _cleanup. rewrite expire_loop_eq.
  destruct (size_pass _ _ _) as [[c2 t2] n2].
  destruct (_ || _); by rewrite ?log_cleanupTimer.
Qed.

Lemma without_wf D c : Map_wf c → Map_wf (without D c).
Proof. apply Map_wf_filter. Qed.

Lemma cleanup_wf now s : Map_wf (cache s) → Map_wf (cache (_cleanup now s)).
Proof. intros. rewrite cleanup_cache. by do 2 apply without_wf. Qed.

(** Removing distinct keys of a [Map] shrinks it by their number. *)
Lemma without_length D c :
  Map_wf c → NoDup D → (∀ k, k ∈ D → k ∈ Map_keys c) →
  (length (without D c) + length D = length c)%nat.
Proof.
  intros Hwf HD Hsub.
  pose proof (filter_app_complement (λ kv : string * CacheEntry, kv.1 ∉ D) c) as Hp.
  apply Permutation_length in Hp. rewrite length_app in Hp.
  fold (without D c) in Hp. rewrite <- Hp. f_equal.
  rewrite <- (length_fmap fst (filter _ c)).
  apply Permutation_length. apply NoDup_Permutation; [done | |].
  - by apply (Map_wf_filter (λ kv : string * CacheEntry, ¬ (kv.1 ∉ D))).
  - intros k. rewrite list_elem_of_fmap. split.
    + intros Hk. pose proof (Hsub k Hk) as Hc.
      apply list_elem_of_fmap in Hc as [[k' e] [-> Hin]].
      exists (k', e). split; [done|]. apply list_elem_of_filter.
      split; [|done]. simpl in *. by intros Hn.
    + intros [[k' e] [-> Hf]]. apply list_elem_of_filter in Hf as [Hn _].
      simpl in *. by destruct (decide (k' ∈ D)).
Qed.

Lemma by_created_total a b : le_by by_created a b ∨ le_by by_created b a.
Proof. unfold le_by, by_created. lia. Qed.

Lemma by_created_trans a b c :
  le_by by_created a b → le_by by_created b c → le_by by_created a c.
Proof. unfold le_by, by_created. lia. Qed.

Lemma toRemove_sublist m c : toRemove m c `sublist_of` Array_sort by_created c.
Proof. unfold toRemove. apply sublist_take. Qed.

Lemma toRemove_elem m c kv : kv ∈ toRemove m c → kv ∈ c.
Proof.
  intros Hin. rewrite <- (Array_sort_perm by_created c).
  eapply elem_of_sublist; [done | apply toRemove_sublist].
Qed.

Lemma toRemove_keys_NoDup m c : Map_wf c → NoDup (Map_keys (toRemove m c)).
Proof.
  unfold Map_wf, Map_keys. intros Hwf.
  eapply sublist_NoDup; [|apply fmap_sublist, toRemove_sublist].
  by rewrite (Array_sort_perm by_created c).
Qed.

Lemma toRemove_length m c :
  0 <= m <= Z.of_nat (length c) →
  Z.of_nat (length (toRemove m c)) = Z.of_nat (length c) - m.
Proof.
  intros Hm. unfold toRemove.
  rewrite length_take_le by (rewrite Array_sort_length; lia). lia.
Qed.

Lemma size_pass_length m c t :
  Map_wf c → 0 <= m → Z.of_nat (length (size_pass m c t).1.1) <= m.
Proof.
  intros Hwf Hm. unfold size_pass. destruct (m <? Z.of_nat (length c)) eqn:E.
  - apply Z.ltb_lt in E. rewrite evict_loop_eq. simpl.
    pose proof (without_length (Map_keys (toRemove m c)) c Hwf
                  (toRemove_keys_NoDup m c Hwf)) as Hlen.
    pose proof (toRemove_length m c).
    assert (∀ k, k ∈ Map_keys (toRemove m c) → k ∈ Map_keys c) as Hsub.
    { unfold Map_keys. intros k [kv [-> Hin]]%list_elem_of_fmap.
      apply list_elem_of_fmap. exists kv. split; [done|].
      by eapply toRemove_elem. }
    specialize (Hlen Hsub). unfold Map_keys in Hlen.
    rewrite length_fmap in Hlen. unfold Map_keys. lia.
  - apply Z.ltb_ge in E. simpl. lia.
Qed.

Lemma cleanup_size now s :
  Map_wf (cache s) → 0 <= maxSize (_config s) →
  Z.of_nat (length (cache (_cleanup now s))) <= maxSize (_config s).
Proof.
  intros Hwf Hm.
  pose proof (size_pass_length (maxSize (_config s))
                (without (expired_keys now (cache s)) (cache s))
                (cancel_all (expired_keys now (cache s)) (timers s))
                (without_wf _ _ Hwf) Hm) as Hlen.
  unfold _cleanup. rewrite expire_loop_eq.
  destruct (size_pass _ _ _) as [[c2 t2] n2]. simpl in Hlen.
  destruct (_ || _); by rewrite ?log_cache.
Qed.

Lemma set_wf now key value ttl roll s :
  Map_wf (cache s) → Map_wf (cache (set now key value ttl roll s).2).
Proof.
  intros Hwf. unfold set. simpl.
  destruct roll; [apply cleanup_wf|]; simpl; by apply Map_wf_set.
Qed.

(** C2 (size bound).  On a cache whose [maxSize] is positive the store
    holds at most [maxSize] entries when a sweep has completed, whether the
    periodic timer ran it, or [set] on its one-in-ten roll, or
    [setMaxSize] for the bound it was given. *)
Theorem sweep_size_bound (now : Z) (s : CacheService) :
  Map_wf (cache s) →
  (0 < maxSize (_config s) →
     Z.of_nat (length (cache (_cleanup now s))) <= maxSize (_config (_cleanup now s))
     ∧ (is_Some (_cleanupTimer s) →
        Z.of_nat (length (cache (tick now s))) <= maxSize (_config (tick now s)))
     ∧ (∀ key value ttl,
          let s' := (set now key value ttl true s).2 in
          Z.of_nat (length (cache s')) <= maxSize (_config s')))
  ∧ (∀ size, 0 < size →
       let s' := setMaxSize now size s in
       maxSize (_config s') = size ∧ Z.of_nat (length (cache s')) <= size).
Proof.
  intros Hwf. split.
  - intros Hpos. split; [|split].
    + rewrite cleanup_config. apply cleanup_size; [done | lia].
    + intros [i Hi]. unfold tick. rewrite Hi.
      rewrite cleanup_config. apply cleanup_size; [done | lia].
    + intros key value ttl s'. subst s'. unfold set. simpl.
      rewrite cleanup_config. apply cleanup_size; simpl; [|lia].
      by apply Map_wf_set.
  - intros size Hpos s'. subst s'. unfold setMaxSize.
    rewrite cleanup_config. simpl. split; [done|].
    etransitivity; [apply cleanup_size|]; simpl; [done | lia | lia].
Qed.

Lemma sweep_size_bound_witness :
  let s := (set 3 "c" (JNum 3) (Some 0) false
              (set 2 "b" (JNum 2) (Some 0) false
                 (set 1 "a" (JNum 1) (Some 0) false fresh).2).2).2 in
  length (cache s) = 3%nat
  ∧ Z.of_nat (length (cache (setMaxSize 4 2 s))) <= 2.
Proof.
  split; [reflexivity|].
  refine (proj2 (proj2 (sweep_size_bound 4 _ _) 2 _)); [|lia].
  unfold Map_wf. apply (bool_decide_unpack _). by vm_compute.
Defined.

(** ** Eviction order *)

Lemma toRemove_oldest m c r q :
  Map_wf c → r ∈ toRemove m c → q ∈ without (Map_keys (toRemove m c)) c →
  created r.2 <= created q.2.
Proof.
  intros Hwf Hr Hq. unfold without in Hq.
  apply list_elem_of_filter in Hq as [Hn Hq].
  pose proof (Array_sort_strongly_sorted by_created by_created_total
                by_created_trans c) as Hs.
  rewrite <- (take_drop (Z.to_nat (Z.of_nat (length c) - m))
                (Array_sort by_created c)) in Hs.
  fold (toRemove m c) in Hs.
  assert (q ∈ drop (Z.to_nat (Z.of_nat (length c) - m)) (Array_sort by_created c))
    as Hq'.
  { rewrite <- (Array_sort_perm by_created c) in Hq.
    rewrite <- (take_drop (Z.to_nat (Z.of_nat (length c) - m))
                  (Array_sort by_created c)) in Hq.
    apply elem_of_app in Hq as [Hq | Hq]; [|done].
    exfalso. apply Hn. apply list_elem_of_fmap. by exists q. }
  pose proof (StronglySorted_app_1_elem_of _ _ _ r q Hs Hr Hq') as Hle.
  unfold le_by, by_created in Hle. lia.
Qed.

Lemma toRemove_partition m c :
  Map_wf c → c ≡ₚ toRemove m c ++ without (Map_keys (toRemove m c)) c.
Proof.
  intros Hwf.
  rewrite <- (filter_app_complement
                (λ kv : string * CacheEntry, kv.1 ∉ Map_keys (toRemove m c)) c) at 1.
  fold (without (Map_keys (toRemove m c)) c).
  rewrite (comm (++)). f_equiv.
  apply NoDup_Permutation.
  - apply NoDup_filter. apply (NoDup_fmap_1 fst). exact Hwf.
  - apply (NoDup_fmap_1 fst). by apply toRemove_keys_NoDup.
  - intros [k e]. rewrite list_elem_of_filter. simpl. split.
    + intros [Hin Hc]. destruct (decide (k ∈ Map_keys (toRemove m c))) as [Hk|]; [|done].
      apply list_elem_of_fmap in Hk as [[k' e'] [-> Hr]]. simpl.
      pose proof (toRemove_elem _ _ _ Hr) as Hc'.
      apply (Map_get_elem _ _ _ Hwf) in Hc, Hc'. simpl in *.
      rewrite Hc in Hc'. by injection Hc' as ->.
    + intros Hr. split; [|by eapply toRemove_elem].
      intros Hn. apply Hn. apply list_elem_of_fmap. by exists (k, e).
Qed.

Lemma without_none_expired now c :
  Forall (λ kv, is_expired now kv.2 = false) c → expired_keys now c = [].
Proof.
  unfold expired_keys, Map_keys. induction 1 as [|kv c Hkv Hc IH]; [done|].
  rewrite filter_cons_False; [done|]. rewrite Hkv. by intros [].
Qed.

(** C3 (oldest-first eviction).  With [maxSize = n] and [n + 1] entries,
    none expired, whose creation times increase strictly along the store,
    the sweep removes the first, oldest entry and its timer and nothing
    else.  In general, when the size pass runs on a store with more than
    [maxSize ≥ 0] unexpired entries, what it removes are exactly
    [count − maxSize] of them, none created later than any entry it
    keeps, together with their timers. *)
Theorem oldest_first_eviction (now : Z) (s : CacheService) :
  Map_wf (cache s) →
  (∀ key entry rest,
     cache s = (key, entry) :: rest →
     maxSize (_config s) = Z.of_nat (length rest) →
     Forall (λ kv, is_expired now kv.2 = false) (cache s) →
     StronglySorted (λ a b, created a.2 < created b.2) (cache s) →
     cache (_cleanup now s) = rest
     ∧ timers (_cleanup now s) = delete key (timers s))
  ∧ (let survivors := filter (λ kv, ¬ is_expired now kv.2) (cache s) in
     0 <= maxSize (_config s) < Z.of_nat (length survivors) →
     ∃ removed,
       Z.of_nat (length removed) = Z.of_nat (length survivors) - maxSize (_config s)
       ∧ survivors ≡ₚ removed ++ cache (_cleanup now s)
       ∧ cache (_cleanup now s) = without (Map_keys removed) survivors
       ∧ (∀ r q, r ∈ removed → q ∈ cache (_cleanup now s) →
                 created r.2 <= created q.2)
       ∧ (∀ r, r ∈ removed → timers (_cleanup now s) !! r.1 = None)).
Proof.
  intros Hwf. split.
  - intros key entry rest Hc Hmax Hfresh Hincr.
    assert (size_victims now s = [key]) as Hv.
    { unfold size_victims. rewrite expire_loop_eq.
      rewrite (without_none_expired _ _ Hfresh), without_nil.
      rewrite Hmax, Hc. simpl length.
      rewrite (proj2 (Z.ltb_lt _ _)) by lia.
      unfold toRemove. rewrite Array_sort_sorted_id.
      - simpl length.
        replace (Z.to_nat (Z.of_nat (S (length rest)) - Z.of_nat (length rest)))
          with 1%nat by lia.
        done.
      - rewrite <- Hc. eapply StronglySorted_weaken; [|exact Hincr].
        intros a b. unfold le_by, by_created. lia. }
    rewrite cleanup_cache, cleanup_timers, Hv.
    rewrite (without_none_expired _ _ Hfresh), without_nil.
    split.
    + rewrite Hc. unfold without. rewrite filter_cons_False
        by (simpl; intros Hn; apply Hn; apply list_elem_of_here).
      rewrite Hc in Hwf. unfold Map_wf, Map_keys in Hwf. simpl in Hwf.
      apply NoDup_cons in Hwf as [Hk _].
      rewrite <- (without_nil rest) at 2. unfold without.
      apply filter_iff_elem. intros [k e] Hin. simpl.
      split; [intros _; apply not_elem_of_nil|].
      intros _ Heq%list_elem_of_singleton. subst.
      apply Hk. apply list_elem_of_fmap. by exists (key, e).
    + unfold cancel_all. simpl. apply cancel_timer_delete.
  - intros survivors Hm. subst survivors.
    rewrite <- (without_expired now (cache s) Hwf) in *.
    set (c1 := without (expired_keys now (cache s)) (cache s)) in *.
    assert (Map_wf c1) as Hwf1 by (by apply without_wf).
    assert (size_victims now s = Map_keys (toRemove (maxSize (_config s)) c1)) as Hv.
    { unfold size_victims. rewrite expire_loop_eq. fold c1.
      by rewrite (proj2 (Z.ltb_lt _ _)) by lia. }
    exists (toRemove (maxSize (_config s)) c1).
    rewrite cleanup_cache, cleanup_timers, Hv. fold c1.
    split; [apply toRemove_length; lia|].
    split; [by apply toRemove_partition|].
    split; [done|].
    split; [intros r q; by apply toRemove_oldest|].
    intros r Hr. rewrite cancel_all_lookup.
    rewrite decide_True; [done|]. apply list_elem_of_fmap. by exists r.
Qed.

Lemma oldest_first_eviction_witness :
  let s := run [OpSetConfig {| opt_defaultTTL := None; opt_maxSize := Some 2;
                               opt_enableLogging := None; opt_logger := None;
                               opt_cleanupInterval := None |};
                OpSet 1 "a" (JNum 1) (Some 0) false;
                OpSet 2 "b" (JNum 2) (Some 0) false;
                OpSet 3 "c" (JNum 3) (Some 0) false] fresh in
  Map_keys (cache s) = ["a"; "b"; "c"]
  ∧ Map_keys (cache (_cleanup 4 s)) = ["b"; "c"]
  ∧ timers (_cleanup 4 s) = delete "a" (timers s).
Proof.
  intros s. split; [reflexivity|].
  assert (Map_wf (cache s)) as Hwf
    by (unfold Map_wf; apply (bool_decide_unpack _); by vm_compute).
  destruct (proj1 (oldest_first_eviction 4 s Hwf) "a"
              {| data := JNum 1; created := 1; lastAccessed := 1; expires := None |}
              [("b", {| data := JNum 2; created := 2; lastAccessed := 2; expires := None |});
               ("c", {| data := JNum 3; created := 3; lastAccessed := 3; expires := None |})])
    as [Hc Ht].
  - reflexivity.
  - reflexivity.
  - each_of_list ltac:(reflexivity).
  - repeat (constructor; [|each_of_list ltac:(simpl; lia)]). constructor.
  - split; [by rewrite Hc | exact Ht].
Defined.

(** ** What an operation does to one key *)

Lemma view_log key level message metadata s :
  view key (_log level message metadata s) = view key s.
Proof. unfold view. by rewrite log_cache, log_timers. Qed.

Lemma same_entry_touch now e : same_entry e (touch now e).
Proof. done. Qed.

Lemma view_get_other now key k s : key ≠ k → view k (get now key s).2 = view k s.
Proof.
  intros Hne. unfold get, view.
  destruct (Map_get key (cache s)) as [entry|]; [|done].
  destruct (is_expired now entry); simpl.
  - rewrite Map_get_delete, cancel_timer_delete, lookup_delete.
    by rewrite !decide_False.
  - by rewrite Map_get_set, decide_False.
Qed.

Lemma view_get_same now key s :
  view key (get now key s).2
  = match Map_get key (cache s) with
    | Some entry =>
        if is_expired now entry then (None, None)
        else (Some (touch now entry), timers s !! key)
    | None => view key s
    end.
Proof.
  unfold get, view.
  destruct (Map_get key (cache s)) as [entry|] eqn:E; simpl; [|by rewrite E].
  destruct (is_expired now entry); simpl.
  - rewrite Map_get_delete, cancel_timer_delete, lookup_delete.
    by rewrite !decide_True.
  - by rewrite Map_get_set, decide_True.
Qed.

Lemma view_set_other now key value ttl k s :
  key ≠ k → view k (set now key value ttl false s).2 = view k s.
Proof.
  intros Hne. unfold set, view. simpl.
  rewrite Map_get_set, decide_False by done. f_equal.
  destruct (truthy _).
  - rewrite lookup_insert_ne by done.
    rewrite cancel_timer_delete. by rewrite lookup_delete_ne.
  - rewrite cancel_timer_delete. by rewrite lookup_delete_ne.
Qed.

Lemma view_del key k s :
  view k (del key s).2 = if decide (key = k) then (None, None) else view k s.
Proof.
  unfold del, view. simpl.
  rewrite Map_get_delete, cancel_timer_delete, lookup_delete.
  by case_decide.
Qed.

Lemma view_timer_callback key k s :
  view k (timer_callback key s) = if decide (key = k) then (None, None) else view k s.
Proof.
  unfold timer_callback, view. simpl. rewrite Map_get_delete, lookup_delete.
  by case_decide.
Qed.

Lemma view_cleanup now k s :
  view k (_cleanup now s)
  = if decide (k ∈ size_victims now s ∨ k ∈ expired_keys now (cache s))
    then (None, None) else view k s.
Proof.
  unfold view. rewrite cleanup_cache, cleanup_timers.
  rewrite !Map_get_without, !cancel_all_lookup.
  destruct (decide (k ∈ size_victims now s)),
    (decide (k ∈ expired_keys now (cache s))); case_decide; tauto.
Qed.

Lemma expired_keys_elem now c k :
  k ∈ expired_keys now c → ∃ e, (k, e) ∈ c ∧ is_expired now e = true.
Proof.
  unfold expired_keys, Map_keys. intros [[k' e] [-> Hf]]%list_elem_of_fmap.
  apply list_elem_of_filter in Hf as [He Hin]. simpl in *.
  exists e. split; [done|]. by destruct (is_expired now e).
Qed.

Lemma expired_keys_get now c k e :
  Map_wf c → Map_get k c = Some e → is_expired now e = false →
  k ∉ expired_keys now c.
Proof.
  intros Hwf Hget He [e' [Hin He']]%expired_keys_elem.
  apply (Map_get_elem _ _ _ Hwf) in Hin. congruence.
Qed.

Lemma get_fulfilled now key s :
  (get now key s).1 = Fulfilled (match Map_get key (cache s) with
                                 | Some entry =>
                                     if is_expired now entry then JNull else data entry
                                 | None => JNull
                                 end).
Proof.
  unfold get. destruct (Map_get key (cache s)) as [entry|]; [|done].
  by destruct (is_expired now entry).
Qed.

Lemma has_state now key s : (has now key s).2 = (get now key s).2.
Proof.
  unfold has. pose proof (get_fulfilled now key s) as Hg.
  destruct (get now key s) as [[v|e] s']; done.
Qed.

Lemma catch_state key err s :
  (getOrSet_catch key err s).2 = s
  ∨ ∃ message metadata, (getOrSet_catch key err s).2 = _log error message metadata s.
Proof.
  unfold getOrSet_catch.
  destruct (get_property err "message"); [|by left].
  destruct (get_property err "stack"); [|by left].
  right. by eexists _, _.
Qed.

Lemma view_catch k key err s : view k (getOrSet_catch key err s).2 = view k s.
Proof.
  destruct (catch_state key err s) as [-> | (m & md & ->)]; [done|].
  apply view_log.
Qed.

Lemma step_getOrSet now now' key produced ttl roll s :
  step (OpGetOrSet now now' key produced ttl roll) s
  = match (get now key s).1 with
    | Fulfilled cached =>
        if not_null cached then (get now key s).2
        else match produced with
             | Fulfilled value =>
                 (set now' key value (Some (default (defaultTTL (_config s)) ttl)) roll
                    (get now key s).2).2
             | Rejected e => (getOrSet_catch key e (get now key s).2).2
             end
    | Rejected _ => (get now key s).2
    end.
Proof.
  unfold step, getOrSet.
  destruct (get now key s) as [[cached|e] s1]; simpl; [|done].
  destruct (not_null cached); [done|].
  destruct produced as [value|e]; simpl; [done|].
  by destruct (getOrSet_catch key e s1).
Qed.

(** An operation is its effect up to the sweep, then the sweep. *)
Lemma step_sweep op s :
  step op s = match sweeps op s with
              | Some now => _cleanup now (presweep op s)
              | None => presweep op s
              end.
Proof.
  destruct op as [| | | |now key value ttl roll| | |now now' key produced ttl roll
                  | | |now size| | |now| |]; try done.
  - simpl. by destruct roll.
  - unfold presweep, sweeps. rewrite !step_getOrSet.
    destruct (get now key s).1 as [cached|e]; [|by destruct produced, roll].
    destruct produced as [value|e], roll, (not_null cached); done.
  - simpl. unfold tick. by destruct (_cleanupTimer s).
Qed.

Lemma sweeps_time op s now : sweeps op s = Some now → now ∈ op_times op.
Proof.
  destruct op as [| | | |now0 key value ttl roll| | |now0 now' key produced ttl roll
                  | | |now0 size| | |now0| |]; simpl; try done.
  - destruct roll; [|done]. intros [= ->]. apply list_elem_of_here.
  - destruct produced; [|done]. destruct roll; [|done].
    destruct (get now0 key s).1; [|done]. destruct (not_null _); [done|].
    intros [= ->]. apply list_elem_of_further, list_elem_of_here.
  - intros [= ->]. apply list_elem_of_here.
  - destruct (_cleanupTimer s); [|done]. intros [= ->]. apply list_elem_of_here.
Qed.

(** *** Well-formedness of the store is kept *)

Lemma get_wf now key s : Map_wf (cache s) → Map_wf (cache (get now key s).2).
Proof.
  intros Hwf. unfold get. destruct (Map_get key (cache s)) as [entry|]; [|done].
  destruct (is_expired now entry); simpl;
    [by apply Map_wf_delete | by apply Map_wf_set].
Qed.

Lemma catch_wf key err s :
  Map_wf (cache s) → Map_wf (cache (getOrSet_catch key err s).2).
Proof.
  intros Hwf. destruct (catch_state key err s) as [-> | (m & md & ->)]; [done|].
  by rewrite log_cache.
Qed.

Lemma step_wf op s : Map_wf (cache s) → Map_wf (cache (step op s)).
Proof.
  intros Hwf.
  destruct op as [|now key|now key|now|now key value ttl roll|key|
                  |now now' key produced ttl roll
                  |options|ttl|now size|l|enabled|now|now key|].
  - simpl. by rewrite log_cache.
  - by apply get_wf.
  - simpl. rewrite has_state. by apply get_wf.
  - done.
  - by apply set_wf.
  - simpl. by apply Map_wf_delete.
  - simpl. rewrite log_cache. apply NoDup_nil_2.
  - rewrite step_getOrSet. pose proof (get_wf now key s Hwf).
    destruct (get now key s).1; [|done]. destruct (not_null _); [done|].
    destruct produced; [by apply set_wf | by apply catch_wf].
  - simpl. unfold setConfig. destruct (opt_cleanupInterval options); [|done].
    unfold _startCleanupTimer, _stopCleanupTimer.
    destruct (_cleanupTimer _); simpl; destruct (0 <? _); done.
  - done.
  - simpl. unfold setMaxSize. by apply cleanup_wf.
  - done.
  - done.
  - simpl. unfold tick. destruct (_cleanupTimer s); [by apply cleanup_wf | done].
  - simpl. unfold fire. destruct (timers s !! key) as [t|]; [|done].
    destruct (due t <=? now); [|done]. simpl. by apply Map_wf_delete.
  - simpl. unfold destroy. rewrite log_cache. apply NoDup_nil_2.
Qed.

Lemma run_wf ops s : Map_wf (cache s) → Map_wf (cache (run ops s)).
Proof.
  unfold run. revert s. induction ops as [|op ops IH]; intros s Hwf; simpl; [done|].
  apply IH. by apply step_wf.
Qed.

(** Every state a service gets into has a store with distinct keys. *)
Lemma reachable_wf options s ops :
  constructor options = Fulfilled s → Map_wf (cache (run ops s)).
Proof.
  intros Hc. apply run_wf. unfold constructor in Hc.
  assert (∀ s0, cache (_startCleanupTimer s0) = cache s0) as Hstart
    by (intros s0; unfold _startCleanupTimer; by destruct (0 <? _)).
  destruct (logger _); [destruct (enableLogging _); [destruct (has_info _)|]|];
    try done; injection Hc as <-; simpl; rewrite Hstart; apply NoDup_nil_2.
Qed.

Lemma presweep_wf op s : Map_wf (cache s) → Map_wf (cache (presweep op s)).
Proof.
  intros Hwf.
  destruct op as [|now key|now key|now|now key value ttl roll|key|
                  |now now' key produced ttl roll
                  |options|ttl|now size|l|enabled|now|now key|];
    try (by apply (step_wf _ s Hwf)); try done.
  by apply (set_wf now key value ttl false).
Qed.

(** *** The effect of an operation on a key, before its sweep

    Unless the operation stores under the key, it either leaves the two
    stores alone there, or empties both (an explicit deletion, the lazy
    removal of an expired entry by [get], or the key's timer), or is a
    successful [get], which touches the entry. *)

Lemma view_setConfig k options s : view k (setConfig options s) = view k s.
Proof.
  unfold setConfig. destruct (opt_cleanupInterval options); [|done].
  unfold _startCleanupTimer, _stopCleanupTimer.
  destruct (_cleanupTimer _); simpl; destruct (0 <? _); done.
Qed.

Lemma view_getOrSet_other now now' key produced ttl k s :
  key ≠ k → view k (step (OpGetOrSet now now' key produced ttl false) s) = view k s.
Proof.
  intros Hne. rewrite step_getOrSet.
  destruct (get now key s).1; [|by apply view_get_other].
  destruct (not_null _); [by apply view_get_other|].
  destruct produced.
  - rewrite view_set_other by done. by apply view_get_other.
  - rewrite view_catch. by apply view_get_other.
Qed.

Lemma presweep_view k op s :
  rewrites k op = true
  ∨ view k (presweep op s) = view k s
  ∨ (view k (presweep op s) = (None, None)
     ∧ (deletes k op = true
        ∨ (∃ now e, now ∈ op_times op ∧ Map_get k (cache s) = Some e
                    ∧ is_expired now e = true)
        ∨ (∃ now h, op = OpFire now k ∧ timers s !! k = Some h ∧ due h <= now)))
  ∨ (∃ now e, Map_get k (cache s) = Some e
              ∧ view k (presweep op s) = (Some (touch now e), timers s !! k)).
Proof.
  assert (∀ now key,
    view k (get now key s).2 = view k s
    ∨ (view k (get now key s).2 = (None, None)
       ∧ ∃ e, Map_get k (cache s) = Some e ∧ is_expired now e = true)
    ∨ (∃ e, Map_get k (cache s) = Some e
            ∧ view k (get now key s).2 = (Some (touch now e), timers s !! k)))
    as Hget.
  { intros now key. destruct (decide (key = k)) as [-> | Hne].
    - rewrite view_get_same. destruct (Map_get k (cache s)) as [e|]; [|by left].
      destruct (is_expired now e) eqn:E; right; [left | right]; eauto.
    - left. by apply view_get_other. }
  destruct op as [|now key|now key|now|now key value ttl roll|key|
                  |now now' key produced ttl roll
                  |options|ttl|now size|l|enabled|now|now key|];
    cbn [presweep step rewrites deletes op_times].
  - right; left. apply view_log.
  - destruct (Hget now key) as [H | [[H (e & ? & ?)] | (e & ? & ?)]].
    + by right; left.
    + right; right; left. split; [done|]. right; left.
      exists now, e. split; [apply list_elem_of_here | done].
    + right; right; right. by exists now, e.
  - rewrite has_state.
    destruct (Hget now key) as [H | [[H (e & ? & ?)] | (e & ? & ?)]].
    + by right; left.
    + right; right; left. split; [done|]. right; left.
      exists now, e. split; [apply list_elem_of_here | done].
    + right; right; right. by exists now, e.
  - by right; left.
  - destruct (decide (key = k)) as [-> | Hne].
    + left. by apply bool_decide_eq_true.
    + right; left. by apply view_set_other.
  - rewrite view_del. destruct (decide (key = k)) as [-> | Hne].
    + right; right; left. split; [done|]. left. by apply bool_decide_eq_true.
    + by right; left.
  - right; right; left. split; [|by left]. unfold clear. simpl.
    by rewrite view_log.
  - destruct (decide (key = k)) as [-> | Hne].
    + left. by apply bool_decide_eq_true.
    + right; left.
      by apply (view_getOrSet_other now now' key produced ttl k s).
  - right; left. apply view_setConfig.
  - by right; left.
  - by right; left.
  - by right; left.
  - by right; left.
  - by right; left.
  - unfold fire. destruct (timers s !! key) as [h|] eqn:E; [|by right; left].
    destruct (due h <=? now) eqn:Ed; [|by right; left].
    rewrite view_timer_callback. destruct (decide (key = k)) as [-> | Hne].
    + right; right; left. split; [done|]. right; right.
      exists now, h. split; [done|]. split; [done|]. by apply Z.leb_le.
    + by right; left.
  - right; right; left. split; [|by left]. unfold destroy. by rewrite view_log.
Qed.

(** *** Keeping an entry *)

Lemma step_keeps k v x h op s :
  holds k v x h s →
  rewrites k op = false → deletes k op = false → sweep_spares k op s = true →
  (∀ now, now ∈ op_times op → lapsed now x = false) →
  (∀ now h0, op = OpFire now k → h = Some h0 → now < due h0) →
  holds k v x h (step op s).
Proof.
  intros (Hwf & (e & Hget & Hv & Hx) & Hh) Hrw Hdel Hsp Htimes Hfire.
  assert (∃ e', view k (presweep op s) = (Some e', h) ∧ data e' = v ∧ expires e' = x)
    as (e' & Hview & Hv' & Hx').
  { destruct (presweep_view k op s)
      as [Hc | [Hsame | [[_ [Hc | [(now & e0 & Hnow & Hg & He) | (now & h0 & -> & Ht & Hd)]]]
                        | (now & e0 & Hg & Hview)]]].
    - congruence.
    - exists e. rewrite Hsame. unfold view. by rewrite Hget, Hh.
    - congruence.
    - rewrite Hget in Hg. injection Hg as <-.
      specialize (Htimes now Hnow). unfold is_expired in He. congruence.
    - rewrite Hh in Ht. specialize (Hfire now h0 eq_refl Ht). lia.
    - rewrite Hget in Hg. injection Hg as <-.
      exists (touch now e). by rewrite Hview, Hh. }
  unfold view in Hview. injection Hview as Hget' Hh'.
  pose proof (presweep_wf op s Hwf) as Hwf'.
  split; [by apply step_wf|].
  rewrite step_sweep. unfold sweep_spares in Hsp.
  destruct (sweeps op s) as [now|] eqn:Esw; [|by eauto].
  apply bool_decide_eq_true in Hsp.
  pose proof (view_cleanup now k (presweep op s)) as Hc.
  rewrite decide_False in Hc.
  - unfold view in Hc. injection Hc as Hc1 Hc2.
    rewrite Hc1, Hc2. eauto.
  - intros [Hin | Hin]; [done|].
    eapply expired_keys_get in Hin; [done | done | exact Hget' |].
    unfold is_expired. rewrite Hx'. apply Htimes. by eapply sweeps_time.
Qed.

Lemma run_keeps k v x h ops s :
  holds k v x h s →
  undisturbed k ops s = true →
  Forall (λ op, ∀ now, now ∈ op_times op → lapsed now x = false) ops →
  Forall (λ op, ∀ now h0, op = OpFire now k → h = Some h0 → now < due h0) ops →
  holds k v x h (run ops s).
Proof.
  unfold run. revert s.
  induction ops as [|op ops IH]; intros s Hs Hu Ht Hf; simpl; [done|].
  simpl in Hu. apply andb_prop in Hu as [Hu Hu'].
  apply andb_prop in Hu as [Hu Hsp]. apply andb_prop in Hu as [Hrw Hdel].
  apply negb_true_iff in Hrw, Hdel.
  apply Forall_cons in Ht as [Ht Ht'], Hf as [Hf Hf'].
  apply IH; try done. by apply step_keeps.
Qed.

Lemma get_holds now k v x h s :
  holds k v x h s → lapsed now x = false → (get now k s).1 = Fulfilled v.
Proof.
  intros (_ & (e & Hget & Hv & Hx) & _) Hl.
  rewrite get_fulfilled, Hget. unfold is_expired. by rewrite Hx, Hl, Hv.
Qed.

(** What [set] leaves under its key, when its sweep spares it. *)
Lemma set_holds now k v ttl roll s :
  Map_wf (cache s) →
  sweep_spares k (OpSet now k v ttl roll) s = true →
  let t := default (defaultTTL (_config s)) ttl in
  let x := if 0 <? t then Some (now + t * 1000) else None in
  lapsed now x = false →
  holds k v x (if truthy x then Some {| armed_at := now; delay := t * 1000 |} else None)
    (set now k v ttl roll s).2.
Proof.
  intros Hwf Hsp t x Hl.
  assert (view k (set now k v ttl false s).2
          = (Some {| data := v; created := now; lastAccessed := now; expires := x |},
             if truthy x then Some {| armed_at := now; delay := t * 1000 |} else None))
    as Hview.
  { unfold view, set. simpl. rewrite Map_get_set, decide_True by done.
    fold t. fold x. f_equal. destruct (truthy x).
    - by rewrite lookup_insert_eq.
    - rewrite cancel_timer_delete. by rewrite lookup_delete_eq. }
  unfold view in Hview. injection Hview as Hget Hh.
  pose proof (set_wf now k v ttl false s Hwf) as Hwf'.
  split; [by apply set_wf|].
  change ((set now k v ttl roll s).2) with (step (OpSet now k v ttl roll) s).
  rewrite step_sweep. unfold sweep_spares in Hsp.
  destruct (sweeps _ s) as [now'|] eqn:Esw; cbn [presweep]; [|by eauto].
  assert (now' = now) as -> by (destruct roll; simpl in Esw; congruence).
  apply bool_decide_eq_true in Hsp. cbn [presweep] in Hsp.
  pose proof (view_cleanup now k (set now k v ttl false s).2) as Hc.
  rewrite decide_False in Hc.
  - unfold view in Hc. injection Hc as Hc1 Hc2. split.
    + eexists. split; [etransitivity; [exact Hc1 | exact Hget] | done].
    + etransitivity; [exact Hc2 | exact Hh].
  - intros [Hin | Hin]; [done|].
    eapply expired_keys_get in Hin; [done | done | exact Hget | done].
Qed.

(** *** Losing an entry for good *)

Lemma cleanup_get_Some now k s e :
  Map_get k (cache (_cleanup now s)) = Some e → Map_get k (cache s) = Some e.
Proof.
  pose proof (view_cleanup now k s) as Hv. unfold view in Hv.
  case_decide; injection Hv as Hv _; congruence.
Qed.

Lemma step_fades k op s e' :
  rewrites k op = false →
  Map_get k (cache (step op s)) = Some e' →
  ∃ e, Map_get k (cache s) = Some e ∧ same_entry e e'.
Proof.
  intros Hrw Hget.
  assert (Map_get k (cache (presweep op s)) = Some e') as Hpre.
  { rewrite step_sweep in Hget. destruct (sweeps op s); [|done].
    by eapply cleanup_get_Some. }
  clear Hget.
  destruct (presweep_view k op s)
    as [Hc | [Hsame | [[Hnone _] | (now & e0 & Hg & Hview)]]].
  - congruence.
  - unfold view in Hsame. injection Hsame as Hsame _.
    exists e'. split; [congruence | done].
  - unfold view in Hnone. injection Hnone as Hnone _. congruence.
  - unfold view in Hview. injection Hview as Hview _.
    exists e0. split; [done|]. rewrite Hpre in Hview. injection Hview as ->.
    apply same_entry_touch.
Qed.

Lemma run_fades k x ops s :
  Forall (λ op, rewrites k op = false) ops →
  (∀ e, Map_get k (cache s) = Some e → expires e = x) →
  ∀ e, Map_get k (cache (run ops s)) = Some e → expires e = x.
Proof.
  unfold run. revert s.
  induction ops as [|op ops IH]; intros s Hrw Hs; simpl; [done|].
  apply Forall_cons in Hrw as [Hrw Hrw'].
  apply IH; [done|]. intros e' Hget.
  destruct (step_fades k op s e' Hrw Hget) as (e & Hg & _ & _ & ->).
  by apply Hs.
Qed.

(** ** Expiry *)

Lemma lapsed_before now X : now <= X → lapsed now (Some X) = false.
Proof.
  intros H. unfold lapsed. simpl.
  rewrite (proj2 (Z.ltb_ge _ _)) by done. apply andb_false_r.
Qed.

Lemma lapsed_after now X : 0 < X → X < now → lapsed now (Some X) = true.
Proof.
  intros H0 H. unfold lapsed. simpl.
  rewrite (proj2 (Z.ltb_lt _ _)) by done.
  by rewrite (proj2 (Z.eqb_neq _ _)) by lia.
Qed.

(** C1 (expiry), as the code has it.  Let [set(k, v, t)] with [t > 0]
    run at clock reading [T ≥ 0] and let [X = T + t*1000].
    - A [get(k)] at a reading [r < X] returns [v], whatever operations,
      sweeps and timers ran before it at readings up to [r], provided that
      [t*1000] is a delay the timer takes as it is (at most [TIMEOUT_MAX])
      and that [k] was not stored again, deleted or evicted for size.
    - The same holds at every [r ≤ X], the instant [X] included, as long
      as the timer of [k] has not run.
    - A [get(k)] at a reading [r > X] returns [null], whatever ran before
      it, unless [k] was stored again. *)
Theorem expiry_after_set (s : CacheService) (T : Z) (k : string) (v : jsval)
    (ttl : option Z) (roll : bool) :
  let t := default (defaultTTL (_config s)) ttl in
  let X := T + t * 1000 in
  let s1 := (set T k v ttl roll s).2 in
  0 <= T → 0 < t →
  (Map_wf (cache s) → sweep_spares k (OpSet T k v ttl roll) s = true →
     (∀ ops r,
        undisturbed k ops s1 = true →
        Forall (λ op, ∀ now, now ∈ op_times op → now <= r) ops →
        r < X → t * 1000 <= TIMEOUT_MAX →
        (get r k (run ops s1)).1 = Fulfilled v)
     ∧ (∀ ops r,
          undisturbed k ops s1 = true →
          Forall (λ op, ∀ now, now ∈ op_times op → now <= r) ops →
          Forall (λ op, not_fired k op = true) ops →
          r <= X →
          (get r k (run ops s1)).1 = Fulfilled v))
  ∧ (∀ ops r,
       Forall (λ op, rewrites k op = false) ops →
       X < r →
       (get r k (run ops s1)).1 = Fulfilled JNull).
Proof.
  intros t X s1 HT Ht. split.
  - intros Hwf Hsp.
    pose proof (set_holds T k v ttl roll s Hwf Hsp) as Hs1.
    cbv zeta in Hs1. fold t in Hs1. fold s1 in Hs1.
    rewrite (proj2 (Z.ltb_lt 0 t)) in Hs1 by done. fold X in Hs1.
    specialize (Hs1 (lapsed_before T X ltac:(lia))).
    assert (truthy (Some X) = true) as Htr
      by (simpl; apply negb_true_iff, Z.eqb_neq; lia).
    rewrite Htr in Hs1.
    split.
    + intros ops r Hu Htimes Hr Hmax.
      refine (get_holds r k v (Some X) _ _ _ (lapsed_before r X ltac:(lia))).
      eapply run_keeps; [exact Hs1 | done | |].
      * eapply Forall_impl; [exact Htimes|]. intros op Hop now Hnow.
        apply lapsed_before. specialize (Hop now Hnow). lia.
      * eapply Forall_impl; [exact Htimes|]. intros op Hop now h0 -> [= <-].
        specialize (Hop now (list_elem_of_here _ _)).
        unfold due. simpl.
        rewrite (proj2 (Z.leb_le 1 _)), (proj2 (Z.leb_le _ TIMEOUT_MAX)) by lia.
        simpl. lia.
    + intros ops r Hu Htimes Hnf Hr.
      refine (get_holds r k v (Some X) _ _ _ (lapsed_before r X Hr)).
      eapply run_keeps; [exact Hs1 | done | |].
      * eapply Forall_impl; [exact Htimes|]. intros op Hop now Hnow.
        apply lapsed_before. specialize (Hop now Hnow). lia.
      * eapply Forall_impl; [exact Hnf|]. intros op Hop now h0 -> _.
        simpl in Hop. by rewrite bool_decide_eq_true_2 in Hop.
  - intros ops r Hrw Hr.
    assert (∀ e, Map_get k (cache s1) = Some e → expires e = Some X) as Hs1.
    { intros e He. subst s1. unfold set in He. simpl in He.
      assert (Map_get k (cache (set T k v ttl false s).2) = Some e) as He'
        by (destruct roll; [by eapply cleanup_get_Some | done]).
      unfold set in He'. simpl in He'. rewrite Map_get_set, decide_True in He' by done.
      injection He' as <-. simpl. fold t.
      by rewrite (proj2 (Z.ltb_lt 0 t)) by done. }
    pose proof (run_fades k (Some X) ops s1 Hrw Hs1) as Hrun.
    rewrite get_fulfilled.
    destruct (Map_get k (cache (run ops s1))) as [e|] eqn:E; [|done].
    unfold is_expired. rewrite (Hrun e eq_refl).
    rewrite lapsed_after; [done | lia | done].
Qed.

(** The claim as the specification words it fails at the instant [X]
    itself: scenario B of the specification, read at exactly 1000 ms. *)
Lemma expiry_counterexample :
  (get (1000 + 1 * 1000) "x" (set 1000 "x" (JNum 42) (Some 1) false fresh).2).1
  = Fulfilled (JNum 42)
  ∧ (get (1000 + 1 * 1000) "x" (set 1000 "x" (JNum 42) (Some 1) false fresh).2).1
    ≠ Fulfilled JNull.
Proof. split; [reflexivity | discriminate]. Qed.

Lemma expiry_after_set_witness :
  let s1 := (set 1000 "x" (JNum 42) (Some 1) false fresh).2 in
  (get 1999 "x" (run [OpTick 1200; OpSet 1300 "y" JNull None true; OpFire 1999 "x"] s1)).1
  = Fulfilled (JNum 42)
  ∧ (get 2000 "x" (run [OpTick 2000] s1)).1 = Fulfilled (JNum 42)
  ∧ (get 2001 "x" (run [OpTick 1200; OpDel "x"] s1)).1 = Fulfilled JNull.
Proof.
  pose proof (expiry_after_set fresh 1000 "x" (JNum 42) (Some 1) false
                ltac:(lia) ltac:(simpl; lia)) as [Hkeep Hgone].
  cbv zeta in Hkeep, Hgone.
  destruct Hkeep as [Hbefore Hat];
    [unfold Map_wf; apply (bool_decide_unpack _); by vm_compute | reflexivity |].
  split; [|split].
  - apply Hbefore; [by vm_compute | times_bounded | simpl; lia | by vm_compute].
  - apply Hat; [by vm_compute | times_bounded | | simpl; lia].
    each_of_list ltac:(reflexivity).
  - apply Hgone; [|simpl; lia]. each_of_list ltac:(reflexivity).
Defined.

(** C8 (no expiry).  [set(k, v, t)] with [t ≤ 0], given or taken from
    the default, stores the entry with no expiry time and leaves no timer
    for [k]; from then on [get(k)] returns [v] at every clock reading,
    whatever operations, sweeps and timers run in between, until [k] is
    stored again, deleted, or evicted for size.  The store operations
    [get], [set], [del], [has], [clear] and [keys] are always fulfilled. *)
Theorem no_expiry (s : CacheService) (now : Z) (k : string) (v : jsval)
    (ttl : option Z) (roll : bool) :
  let s1 := (set now k v ttl roll s).2 in
  default (defaultTTL (_config s)) ttl <= 0 →
  Map_wf (cache s) →
  sweep_spares k (OpSet now k v ttl roll) s = true →
  (∃ e, Map_get k (cache s1) = Some e ∧ data e = v ∧ expires e = None)
  ∧ timers s1 !! k = None
  ∧ (∀ ops r, undisturbed k ops s1 = true →
              (get r k (run ops s1)).1 = Fulfilled v)
  ∧ (∀ s' r key value ttl' roll',
       (∃ a, (get r key s').1 = Fulfilled a)
       ∧ (set r key value ttl' roll' s').1 = Fulfilled tt
       ∧ (del key s').1 = Fulfilled (Map_has key (cache s'))
       ∧ (∃ b, (has r key s').1 = Fulfilled b)
       ∧ (clear s').1 = Fulfilled tt
       ∧ (∃ l, (keys r s').1 = Fulfilled l)).
Proof.
  intros s1 Ht Hwf Hsp.
  pose proof (set_holds now k v ttl roll s Hwf Hsp) as Hs1.
  cbv zeta in Hs1. fold s1 in Hs1.
  rewrite (proj2 (Z.ltb_ge 0 _)) in Hs1 by done. simpl in Hs1.
  specialize (Hs1 eq_refl).
  split; [apply Hs1|]. split; [apply Hs1|]. split.
  - intros ops r Hu. refine (get_holds r k v None None _ _ eq_refl).
    eapply run_keeps; [exact Hs1 | done | |].
    + apply Forall_forall. by intros.
    + apply Forall_forall. by intros.
  - intros s' r key value ttl' roll'.
    split; [eexists; apply get_fulfilled|].
    split; [done|]. split; [done|].
    split; [|split; [done | by eexists]].
    unfold has. pose proof (get_fulfilled r key s') as Hg.
    destruct (get r key s') as [[a|e] s2]; [by eexists | done].
Qed.

Lemma no_expiry_witness :
  let s1 := (set 1000 "k" (JStr "v") (Some (-5)) true fresh).2 in
  (get 999999999 "k"
     (run [OpTick 5000; OpSet 6000 "other" JNull (Some 1) true; OpFire 7001 "other";
           OpGet 8000 "k"; OpSetMaxSize 9000 1] s1)).1
  = Fulfilled (JStr "v").
Proof.
  intros s1.
  refine (proj1 (proj2 (proj2 (no_expiry fresh 1000 "k" (JStr "v") (Some (-5)) true
                                 _ _ _))) _ 999999999 _).
  - simpl. lia.
  - unfold Map_wf. apply (bool_decide_unpack _). by vm_compute.
  - by vm_compute.
  - by vm_compute.
Defined.

(** ** Deletion *)

(** C5 (idempotent deletion).  [del(k)] is always fulfilled, with whether
    the store had an entry under [k]; it leaves neither an entry nor a
    timer under [k] and touches no other key.  So for a key that is in the
    store, [del(k)] twice in a row returns [true], then [false]. *)
Theorem del_idempotent (s : CacheService) (k : string) :
  ((del k s).1 = Fulfilled (Map_has k (cache s))
   ∧ view k (del k s).2 = (None, None)
   ∧ ∀ k', k' ≠ k → view k' (del k s).2 = view k' s)
  ∧ (k ∈ Map_keys (cache s) →
     (del k s).1 = Fulfilled true ∧ (del k (del k s).2).1 = Fulfilled false).
Proof.
  split.
  - split; [done|]. split.
    + by rewrite view_del, decide_True.
    + intros k' Hne. by rewrite view_del, decide_False.
  - intros Hin. split.
    + unfold del. simpl. f_equal. by apply Map_has_true.
    + unfold del. simpl. f_equal. unfold Map_has.
      by rewrite Map_get_delete, decide_True.
Qed.

Lemma del_idempotent_witness :
  let s := (set 1000 "k" (JNum 7) (Some 60) false fresh).2 in
  (del "k" s).1 = Fulfilled true ∧ (del "k" (del "k" s).2).1 = Fulfilled false.
Proof.
  intros s. apply (proj2 (del_idempotent s "k")).
  unfold Map_keys. apply (bool_decide_unpack _). by vm_compute.
Defined.

(** ** A stored [null] *)

(** C10.  After [set(k, null, t)], while the entry is in the store and has
    not expired, [get(k)] returns [null], which is what it returns for a
    key the store does not have; [has(k)] returns [false]; and
    [getOrSet(k, producer, t')] runs the producer: the producer's world is
    the one it leaves, and a value it produces is what [getOrSet] returns. *)
Theorem null_is_absent {W : Type} (s : CacheService) (now : Z) (k : string)
    (ttl : option Z) (roll : bool) (r r' : Z) (queryFn : W → Outcome jsval * W)
    (w : W) (ttl' : option Z) (roll' : bool) :
  let t := default (defaultTTL (_config s)) ttl in
  let s1 := (set now k JNull ttl roll s).2 in
  (∃ e, Map_get k (cache s1) = Some e) →
  (t <= 0 ∨ r <= now + t * 1000) →
  (get r k s1).1 = Fulfilled JNull
  ∧ (∀ s0, Map_get k (cache s0) = None → (get r k s0).1 = Fulfilled JNull)
  ∧ (has r k s1).1 = Fulfilled false
  ∧ (getOrSet r r' k queryFn ttl' roll' (s1, w)).2.2 = (queryFn w).2
  ∧ (∀ value, (queryFn w).1 = Fulfilled value →
              (getOrSet r r' k queryFn ttl' roll' (s1, w)).1 = Fulfilled value).
Proof.
  intros t s1 [e He] Hr.
  assert (data e = JNull ∧ is_expired r e = false) as [Hd Hx].
  { assert (Map_get k (cache (set now k JNull ttl false s).2) = Some e) as He'.
    { subst s1. unfold set in He. simpl in He.
      destruct roll; [by eapply cleanup_get_Some | done]. }
    unfold set in He'. simpl in He'.
    rewrite Map_get_set, decide_True in He' by done. injection He' as <-.
    split; [done|]. unfold is_expired. simpl. fold t.
    destruct (0 <? t) eqn:E; [|done].
    apply Z.ltb_lt in E. apply lapsed_before. lia. }
  assert ((get r k s1).1 = Fulfilled JNull) as Hget
    by (by rewrite get_fulfilled, He, Hx, Hd).
  split; [done|]. split.
  { intros s0 H0. by rewrite get_fulfilled, H0. }
  split.
  { unfold has. destruct (get r k s1) as [[a|?] s2]; simpl in *; [|done].
    by injection Hget as ->. }
  unfold getOrSet.
  destruct (get r k s1) as [[a|?] s2]; simpl in Hget; [|done].
  injection Hget as ->. simpl.
  destruct (queryFn w) as [[value|err] w']; simpl.
  - split; [done|]. by intros ? [= ->].
  - destruct (getOrSet_catch k err s2). simpl. split; [done|]. by intros.
Qed.

Lemma null_is_absent_witness :
  let s1 := (set 1000 "k" JNull (Some 60) false fresh).2 in
  let producer := λ calls : nat, (Fulfilled (JNum 5), S calls) in
  (get 2000 "k" s1).1 = Fulfilled JNull
  ∧ (has 2000 "k" s1).1 = Fulfilled false
  ∧ (getOrSet 2000 2001 "k" producer None false (s1, 0%nat)).2.2 = 1%nat
  ∧ (getOrSet 2000 2001 "k" producer None false (s1, 0%nat)).1 = Fulfilled (JNum 5).
Proof.
  intros s1 producer.
  pose proof (null_is_absent fresh 1000 "k" (Some 60) false 2000 2001 producer 0%nat
                None false) as H.
  cbv zeta in H. fold s1 in H.
  destruct H as (Hget & _ & Hhas & Hworld & Hvalue).
  - eexists. reflexivity.
  - right. simpl. lia.
  - split; [exact Hget|]. split; [exact Hhas|]. split; [exact Hworld|].
    by apply Hvalue.
Defined.

(** ** Invariant I1: timers and entries *)

Lemma I1_view s : I1 s ↔ ∀ k, is_Some (view k s).2 → is_Some (view k s).1.
Proof.
  unfold I1, view. simpl. split; intros H k Hk.
  - specialize (H k Hk). destruct (Map_get k (cache s)) eqn:E; [done|].
    by apply Map_get_None in E.
  - specialize (H k Hk). destruct (decide (k ∈ Map_keys (cache s))) as [|Hn]; [done|].
    apply Map_get_None in Hn. rewrite Hn in H. by destruct H.
Qed.

(** A state whose views are, key by key, those of a state that satisfies
    I1, or empty, or hold an entry, satisfies I1. *)
Lemma I1_by_view s s' :
  I1 s →
  (∀ k, view k s' = view k s ∨ view k s' = (None, None) ∨ is_Some (view k s').1) →
  I1 s'.
Proof.
  rewrite !I1_view. intros Hs Hv k Hk.
  destruct (Hv k) as [He | [He | He]]; [|by rewrite He in Hk; destruct Hk | done].
  rewrite He in *. by apply Hs.
Qed.

Lemma I1_log level message metadata s : I1 s → I1 (_log level message metadata s).
Proof. intros Hs. apply (I1_by_view s); [done|]. intros k. left. apply view_log. Qed.

Lemma I1_get now key s : I1 s → I1 (get now key s).2.
Proof.
  intros Hs. apply (I1_by_view s); [done|]. intros k.
  destruct (decide (key = k)) as [-> | Hne]; [|left; by apply view_get_other].
  rewrite view_get_same. destruct (Map_get k (cache s)) as [e|]; [|by left].
  destruct (is_expired now e); [by right; left | by right; right].
Qed.

Lemma I1_set now key value ttl s : I1 s → I1 (set now key value ttl false s).2.
Proof.
  intros Hs. apply (I1_by_view s); [done|]. intros k.
  destruct (decide (key = k)) as [-> | Hne]; [|left; by apply view_set_other].
  right; right. unfold view, set. simpl. by rewrite Map_get_set, decide_True.
Qed.

Lemma I1_cleanup now s : I1 s → I1 (_cleanup now s).
Proof.
  intros Hs. apply (I1_by_view s); [done|]. intros k.
  rewrite view_cleanup. case_decide; [by right; left | by left].
Qed.

Lemma I1_catch key err s : I1 s → I1 (getOrSet_catch key err s).2.
Proof.
  intros Hs. apply (I1_by_view s); [done|]. intros k. left. apply view_catch.
Qed.

Lemma I1_empty s : I1 (set_stores [] ∅ s).
Proof. intros k [t Ht]. simpl in Ht. by rewrite lookup_empty in Ht. Qed.

Lemma I1_step op s : I1 s → I1 (step op s).
Proof.
  intros Hs.
  destruct op as [|now key|now key|now|now key value ttl roll|key|
                  |now now' key produced ttl roll
                  |options|ttl|now size|l|enabled|now|now key|].
  - by apply I1_log.
  - by apply I1_get.
  - simpl. rewrite has_state. by apply I1_get.
  - done.
  - change (step (OpSet now key value ttl roll) s)
      with (if roll then _cleanup now (set now key value ttl false s).2
            else (set now key value ttl false s).2).
    destruct roll; [apply I1_cleanup|]; by apply I1_set.
  - apply (I1_by_view s); [done|]. intros k. cbn [step]. rewrite view_del.
    case_decide; [by right; left | by left].
  - simpl. unfold clear. simpl. apply I1_log, I1_empty.
  - rewrite step_getOrSet. pose proof (I1_get now key s Hs) as Hg.
    destruct (get now key s).1; [|done]. destruct (not_null _); [done|].
    destruct produced as [value|err]; [|by apply I1_catch].
    change ((set now' key value (Some (default (defaultTTL (_config s)) ttl)) roll
               (get now key s).2).2)
      with (if roll
            then _cleanup now' (set now' key value
                                  (Some (default (defaultTTL (_config s)) ttl)) false
                                  (get now key s).2).2
            else (set now' key value (Some (default (defaultTTL (_config s)) ttl)) false
                    (get now key s).2).2).
    destruct roll; [apply I1_cleanup|]; by apply I1_set.
  - apply (I1_by_view s); [done|]. intros k. left. apply view_setConfig.
  - done.
  - simpl. unfold setMaxSize. by apply I1_cleanup.
  - done.
  - done.
  - simpl. unfold tick. destruct (_cleanupTimer s); [by apply I1_cleanup | done].
  - simpl. unfold fire. destruct (timers s !! key) as [t|]; [|done].
    destruct (due t <=? now); [|done].
    apply (I1_by_view s); [done|]. intros k. rewrite view_timer_callback.
    case_decide; [by right; left | by left].
  - simpl. unfold destroy. apply I1_log, (I1_empty (_stopCleanupTimer s)).
Qed.

(** C9 (invariant I1).  A new service satisfies I1 and every operation
    keeps it: [set], [get], [has], [keys], [del], [clear], [getOrSet], the
    configuration calls, the sweep however it is started, a key's timer,
    and [destroy].  So it holds after every history; and a key whose
    entry an operation removes has no timer left afterwards. *)
Theorem I1_preserved :
  (∀ options s, constructor options = Fulfilled s → I1 s)
  ∧ (∀ op s, I1 s → I1 (step op s))
  ∧ (∀ options s ops, constructor options = Fulfilled s → I1 (run ops s))
  ∧ (∀ op s k, I1 s → k ∉ Map_keys (cache (step op s)) →
               timers (step op s) !! k = None).
Proof.
  assert (∀ options s, constructor options = Fulfilled s → I1 s) as Hinit.
  { intros options s Hc. unfold constructor in Hc.
    assert (∀ s0 : CacheService, cache s0 = [] → timers s0 = ∅ → I1 s0) as He.
    { intros s0 _ Ht k [t Hk]. rewrite Ht, lookup_empty in Hk. done. }
    destruct (logger _); [destruct (enableLogging _); [destruct (has_info _)|]|];
      try done; injection Hc as <-; apply He;
      unfold _startCleanupTimer; simpl; by destruct (0 <? _). }
  split; [done|]. split; [apply I1_step|]. split.
  - intros options s ops Hc. apply Hinit in Hc. unfold run. revert s Hc.
    induction ops as [|op ops IH]; intros s Hs; simpl; [done|].
    apply IH. by apply I1_step.
  - intros op s k Hs Hk. apply (I1_step op) in Hs.
    destruct (timers (step op s) !! k) eqn:E; [|done].
    exfalso. apply Hk, Hs. by rewrite E.
Qed.

Lemma I1_preserved_witness :
  I1 fresh
  ∧ I1 (step (OpFire 61000 "a") (step (OpSet 1000 "a" (JNum 1) (Some 60) true) fresh)).
Proof.
  assert (I1 fresh) as Hfresh
    by (apply (proj1 I1_preserved no_options); reflexivity).
  split; [done|].
  apply (proj1 (proj2 I1_preserved)). apply (proj1 (proj2 I1_preserved)). done.
Defined.

(** ** Configuration *)

Lemma without_all D c : (∀ kv, kv ∈ c → kv.1 ∈ D) → without D c = [].
Proof.
  unfold without. induction c as [|kv c IH]; intros H; [done|].
  rewrite filter_cons_False by (intros Hn; apply Hn, H, list_elem_of_here).
  apply IH. intros kv' Hin. by apply H, list_elem_of_further.
Qed.

Lemma cleanup_nonpositive now s : maxSize (_config s) <= 0 → cache (_cleanup now s) = [].
Proof.
  intros Hm. rewrite cleanup_cache. unfold size_victims. rewrite expire_loop_eq.
  set (c1 := without (expired_keys now (cache s)) (cache s)).
  destruct (maxSize (_config s) <? Z.of_nat (length c1)) eqn:E.
  - apply without_all. intros kv Hin. unfold toRemove.
    rewrite take_ge by (rewrite Array_sort_length; lia).
    apply list_elem_of_fmap. exists kv. split; [done|].
    by rewrite Array_sort_perm.
  - apply Z.ltb_ge in E. destruct c1; [done | simpl in E; lia].
Qed.

(** C7, as the code has it.  Nothing validates the configuration.  The
    constructor takes every [maxSize] and [defaultTTL] as given; it fails
    only when logging is enabled with a logger that has no [info] method.
    [setMaxSize], [setDefaultTTL] and [setConfig] store whatever they are
    given and never fail; [setMaxSize] with a bound of zero or less
    empties the store. *)
Theorem configuration_not_validated :
  (∀ options,
     let config := spread default_config options in
     (∃ s, constructor options = Fulfilled s ∧ _config s = config
           ∧ cache s = [] ∧ timers s = ∅)
     ∨ (∃ l message, logger config = Some l ∧ enableLogging config = true
                     ∧ has_info l = false
                     ∧ constructor options = Rejected (TypeError message)))
  ∧ (∀ options,
       enableLogging (spread default_config options) = false →
       ∃ s, constructor options = Fulfilled s
            ∧ maxSize (_config s) = default 1000 (opt_maxSize options)
            ∧ defaultTTL (_config s) = default 300 (opt_defaultTTL options))
  ∧ (∀ now size s, maxSize (_config (setMaxSize now size s)) = size)
  ∧ (∀ now size s, size <= 0 → cache (setMaxSize now size s) = [])
  ∧ (∀ ttl s, defaultTTL (_config (setDefaultTTL ttl s)) = ttl)
  ∧ (∀ options s, _config (setConfig options s) = spread (_config s) options).
Proof.
  assert (∀ s0, _config (_startCleanupTimer s0) = _config s0
                ∧ cache (_startCleanupTimer s0) = cache s0
                ∧ timers (_startCleanupTimer s0) = timers s0) as Hstart.
  { intros s0. unfold _startCleanupTimer. by destruct (0 <? _). }
  split; [|split; [|split; [|split; [|split]]]].
  - intros options config. unfold constructor. fold config.
    destruct (logger config) as [l|] eqn:El.
    + destruct (enableLogging config) eqn:Ee.
      * destruct (has_info l) eqn:Ei.
        -- left. eexists. split; [done|]. simpl. apply Hstart.
        -- right. by eexists _, _.
      * left. eexists. split; [done|]. apply Hstart.
    + left. eexists. split; [done|]. apply Hstart.
  - intros options He. unfold constructor. rewrite He.
    destruct (logger _); eexists; (split; [done|]);
      rewrite (proj1 (Hstart _)); done.
  - intros now size s. unfold setMaxSize. by rewrite cleanup_config.
  - intros now size s Hsize. unfold setMaxSize. by apply cleanup_nonpositive.
  - done.
  - intros options s. unfold setConfig.
    destruct (opt_cleanupInterval options); [|done].
    unfold _startCleanupTimer, _stopCleanupTimer.
    destruct (_cleanupTimer _); simpl; destruct (0 <? _); done.
Qed.

(** The claim as the specification words it fails: a [maxSize] of zero is
    taken by the constructor and by [setMaxSize], which then evicts every
    entry. *)
Lemma configuration_counterexample :
  constructor {| opt_defaultTTL := None; opt_maxSize := Some 0;
                 opt_enableLogging := None; opt_logger := None;
                 opt_cleanupInterval := None |}
  = Fulfilled {| cache := []; timers := ∅;
                 _config := {| defaultTTL := 300; maxSize := 0; enableLogging := false;
                               logger := None; cleanupInterval := 60000 |};
                 _cleanupTimer := Some 60000; sink := [] |}
  ∧ maxSize (_config (setMaxSize 2000 0 (set 1000 "k" (JNum 1) None false fresh).2)) = 0
  ∧ cache (setMaxSize 2000 0 (set 1000 "k" (JNum 1) None false fresh).2) = [].
Proof. repeat split; reflexivity. Qed.

Lemma configuration_not_validated_witness :
  (∃ s, constructor {| opt_defaultTTL := Some (-1); opt_maxSize := Some (-7);
                       opt_enableLogging := None; opt_logger := None;
                       opt_cleanupInterval := None |} = Fulfilled s
        ∧ maxSize (_config s) = -7 ∧ defaultTTL (_config s) = -1)
  ∧ cache (setMaxSize 2000 (-7) (set 1000 "k" (JNum 1) None false fresh).2) = [].
Proof.
  destruct configuration_not_validated as (_ & Hctor & _ & Hempty & _).
  split.
  - apply (Hctor {| opt_defaultTTL := Some (-1); opt_maxSize := Some (-7);
                    opt_enableLogging := None; opt_logger := None;
                    opt_cleanupInterval := None |}).
    reflexivity.
  - apply Hempty. lia.
Defined.

(** ** A failing producer *)

(** C4, as the code has it.  Let the store have no entry under [k] and
    let the producer fail with a reason other than [null] and [undefined].
    Then [getOrSet] is rejected with that very reason, after the producer
    ran once; it hands the failure to [_log], which passes it to the
    logger when logging is enabled and the logger has an [error] method,
    and otherwise records nothing; the store, the timers and the
    configuration are as before, and a [get(k)] that follows returns
    [null]. *)
Theorem getOrSet_failure {W : Type} (s : CacheService) (w w' : W) (now now' : Z)
    (k : string) (queryFn : W → Outcome jsval * W) (ttl : option Z) (roll : bool)
    (reason : jsval) :
  Map_get k (cache s) = None →
  queryFn w = (Rejected reason, w') →
  reason ≠ JNull → reason ≠ JUndefined →
  ∃ message stack s',
    get_property reason "message" = Fulfilled message
    ∧ get_property reason "stack" = Fulfilled stack
    ∧ getOrSet now now' k queryFn ttl roll (s, w) = (Rejected reason, (s', w'))
    ∧ s' = _log error ("Error executing query for cache key " +:+ k)
             [("error", message); ("stack", stack)] s
    ∧ sink s' = (if enableLogging (_config s)
                    && match logger (_config s) with
                       | Some l => has_error l
                       | None => false
                       end
                 then (sink s ++ [{| log_level := error;
                                     log_message := "Error executing query for cache key " +:+ k;
                                     log_metadata := [("error", message); ("stack", stack)] |}])%list
                 else sink s)
    ∧ cache s' = cache s ∧ timers s' = timers s ∧ _config s' = _config s
    ∧ ∀ r, (get r k s').1 = Fulfilled JNull.
Proof.
  intros Hk Hq Hnull Hundef.
  assert (∃ message, get_property reason "message" = Fulfilled message) as [message Hm]
    by (destruct reason; try done; by eexists).
  assert (∃ stack, get_property reason "stack" = Fulfilled stack) as [stack Hs]
    by (destruct reason; try done; by eexists).
  exists message, stack. eexists. split; [done|]. split; [done|].
  split; [|split; [reflexivity|]].
  - unfold getOrSet, get. rewrite Hk, Hq. simpl.
    unfold getOrSet_catch. by rewrite Hm, Hs.
  - split.
    + unfold _log. destruct (logger (_config s)) as [l|]; simpl;
        [|by rewrite andb_false_r].
      by destruct (enableLogging (_config s) && has_error l).
    + rewrite log_cache, log_timers, log_config. repeat split.
      intros r. by rewrite get_fulfilled, log_cache, Hk.
Qed.

(** The claim as the specification words it fails in two ways.  On
    scenario C of the specification, run on a service with the default
    configuration, the error is rethrown but nothing is logged.  And for
    a producer that fails with [null], as [Promise.reject(null)] does,
    evaluating [error.message] in the [catch] block throws: [getOrSet]
    is rejected with that [TypeError] in place of the reason. *)
Lemma getOrSet_failure_counterexample :
  (let boom := js_error "Error" "boom" in
   let outcome :=
     getOrSet 1000 1001 "y" (λ w : unit, (Rejected boom, w)) None false (fresh, tt) in
   outcome.1 = Rejected boom ∧ sink outcome.2.1 = [] ∧ outcome.2.1 = fresh)
  ∧ (let outcome :=
       getOrSet 1000 1001 "y" (λ w : unit, (Rejected JNull, w)) None false (fresh, tt) in
     outcome.1 = Rejected (TypeError "Cannot read properties of null (reading 'message')")
     ∧ outcome.1 ≠ Rejected JNull).
Proof. repeat split; try reflexivity. discriminate. Qed.

Lemma getOrSet_failure_witness :
  let boom := js_error "Error" "boom" in
  let s := setLogger {| has_debug := true; has_info := true; has_warn := true;
                        has_error := true |} fresh in
  let outcome :=
    getOrSet 1000 1001 "y" (λ calls : nat, (Rejected boom, S calls)) None false
      (s, 0%nat) in
  outcome.1 = Rejected boom
  ∧ outcome.2.2 = 1%nat
  ∧ sink outcome.2.1
    = [{| log_level := error;
          log_message := "Error executing query for cache key y";
          log_metadata := [("error", JStr "boom"); ("stack", JStr "Error: boom")] |}]
  ∧ cache outcome.2.1 = [].
Proof.
  intros boom s outcome.
  destruct (getOrSet_failure s 0%nat 1%nat 1000 1001 "y"
              (λ calls : nat, (Rejected boom, S calls)) None false boom)
    as (message & stack & s' & Hm & Hs & Hout & _ & Hsink & Hcache & _);
    [reflexivity | reflexivity | discriminate | discriminate |].
  injection Hm as <-. injection Hs as <-.
  subst outcome. rewrite Hout. simpl.
  split; [done|]. split; [done|]. split; [exact Hsink | exact Hcache].
Defined.

(** ** Key generation *)

Lemma own_properties_perm {V : Type} (o1 o2 : list (string * V)) :
  o1 ≡ₚ o2 → own_properties o1 ≡ₚ own_properties o2.
Proof.
  intros Hp. unfold own_properties.
  apply Permutation_app; [|by rewrite Hp].
  apply fmap_Permutation. rewrite !Array_sort_perm. by rewrite Hp.
Qed.

Lemma own_properties_elem {V : Type} (o : list (string * V)) kv :
  kv ∈ own_properties o → kv ∈ o.
Proof.
  unfold own_properties. rewrite elem_of_app. intros [Hin | Hin].
  - apply list_elem_of_fmap in Hin as [[n kv'] [-> Hin]]. simpl.
    rewrite Array_sort_perm in Hin.
    apply list_elem_of_omap in Hin as (x & Hx & Hi).
    unfold indexed in Hi. destruct (array_index x.1); [|done].
    by injection Hi as _ ->.
  - by apply list_elem_of_filter in Hin as [_ Hin].
Qed.

Lemma Object_keys_elem {V : Type} (o : list (string * V)) k :
  k ∈ Object_keys o → k ∈ o.*1.
Proof.
  unfold Object_keys. intros [kv [-> Hin]]%list_elem_of_fmap.
  apply list_elem_of_fmap. exists kv. split; [done|].
  by apply own_properties_elem.
Qed.

Lemma Map_get_perm {V : Type} (m1 m2 : list (string * V)) k :
  m1 ≡ₚ m2 → Map_wf m1 → Map_get k m1 = Map_get k m2.
Proof.
  intros Hp Hwf.
  assert (Map_wf m2) as Hwf2 by (unfold Map_wf, Map_keys in *; by rewrite <- Hp).
  destruct (Map_get k m1) as [v|] eqn:E1.
  - apply Map_get_Some_elem in E1. rewrite Hp in E1.
    symmetry. by apply Map_get_elem.
  - apply Map_get_None in E1. symmetry. apply Map_get_None.
    unfold Map_keys in *. by rewrite <- Hp.
Qed.

Section KeyDeterminism.
(** The collation of the runtime is taken to be consistent: any two
    strings compare one way or the other, transitively.  It may still
    leave different strings undistinguished. *)
Variable localeCompare : string → string → Z.
Hypothesis localeCompare_total :
  ∀ a b, le_by localeCompare a b ∨ le_by localeCompare b a.
Hypothesis localeCompare_trans :
  ∀ a b c, le_by localeCompare a b → le_by localeCompare b c → le_by localeCompare a c.

Lemma sortedParams_perm p1 p2 :
  p1 ≡ₚ p2 → Map_wf p1 → told_apart localeCompare p1 →
  sortedParams localeCompare p1 = sortedParams localeCompare p2.
Proof.
  intros Hp Hwf Hsep. unfold sortedParams.
  rewrite (Array_sort_Permutation localeCompare localeCompare_total
             localeCompare_trans (Object_keys p1) (Object_keys p2)).
  - assert (∀ key, obj_get key p1 = obj_get key p2) as Hget
      by (intros key; unfold obj_get; by rewrite (Map_get_perm p1 p2 key Hp Hwf)).
    generalize (Array_sort localeCompare (Object_keys p2)).
    generalize ([] : jsobj). intros acc l. revert acc.
    induction l as [|key l IH]; intros acc; simpl; [done|].
    rewrite Hget. apply IH.
  - unfold Object_keys. by apply fmap_Permutation, own_properties_perm.
  - intros a b Ha Hb. apply Hsep; by apply Object_keys_elem.
Qed.

(** C6 (key determinism), as the code has it.  Two parameter objects
    with the same bindings, entered in different orders, get the same key,
    provided the collation tells their names apart and the values bound
    are the same down to the order of the properties of any object among
    them; so do [{b:2, a:1}] and [{a:1, b:2}] when the collation tells
    ["a"] from ["b"]; and without parameters the key is ["api:"] followed
    by the endpoint and nothing else. *)
Theorem generateKey_order_insensitive :
  (∀ endpoint p1 p2,
     p1 ≡ₚ p2 → Map_wf p1 → told_apart localeCompare p1 →
     generateKey localeCompare endpoint p1 = generateKey localeCompare endpoint p2)
  ∧ ((le_by localeCompare "a" "b" → le_by localeCompare "b" "a" → False) →
     generateKey localeCompare "e" [("b", JNum 2); ("a", JNum 1)]
     = generateKey localeCompare "e" [("a", JNum 1); ("b", JNum 2)])
  ∧ (∀ endpoint, generateKey localeCompare endpoint [] = "api:" +:+ endpoint).
Proof.
  assert (∀ endpoint p1 p2,
     p1 ≡ₚ p2 → Map_wf p1 → told_apart localeCompare p1 →
     generateKey localeCompare endpoint p1 = generateKey localeCompare endpoint p2)
    as Hgen.
  { intros endpoint p1 p2 Hp Hwf Hsep. unfold generateKey.
    by rewrite (sortedParams_perm p1 p2 Hp Hwf Hsep). }
  split; [done|]. split.
  - intros Hab. apply Hgen.
    + apply perm_swap.
    + unfold Map_wf. apply (bool_decide_unpack _). by vm_compute.
    + intros a b Ha Hb Hle Hge. simpl in Ha, Hb.
      apply elem_of_cons in Ha as [-> | Ha];
        [|apply list_elem_of_singleton in Ha as ->];
        (apply elem_of_cons in Hb as [-> | Hb];
         [|apply list_elem_of_singleton in Hb as ->]);
        try done; exfalso; by apply Hab.
  - intros endpoint. unfold generateKey. simpl. f_equal.
    induction endpoint as [|c e IH]; [done|].
    unfold String.append. fold String.append. by rewrite IH.
Qed.
End KeyDeterminism.

(** *** The ordinal collation *)

Lemma ordinalCompare_total a b : le_by ordinalCompare a b ∨ le_by ordinalCompare b a.
Proof.
  unfold le_by, ordinalCompare. rewrite (String.compare_antisym a b).
  destruct (String.compare b a); simpl; lia.
Qed.

Lemma String_compare_trans a b c :
  String.compare a b ≠ Gt → String.compare b c ≠ Gt → String.compare a c ≠ Gt.
Proof.
  revert b c. induction a as [|x a IH]; intros [|y b] [|z c]; simpl; try done.
  unfold Ascii.compare.
  destruct (N.compare_spec (N_of_ascii x) (N_of_ascii y)) as [Hxy | Hxy | Hxy];
    destruct (N.compare_spec (N_of_ascii y) (N_of_ascii z)) as [Hyz | Hyz | Hyz];
    destruct (N.compare_spec (N_of_ascii x) (N_of_ascii z)) as [Hxz | Hxz | Hxz];
    try done; try lia.
  apply IH.
Qed.

Lemma ordinalCompare_trans a b c :
  le_by ordinalCompare a b → le_by ordinalCompare b c → le_by ordinalCompare a c.
Proof.
  unfold le_by, ordinalCompare. intros Hab Hbc.
  pose proof (String_compare_trans a b c) as H.
  destruct (String.compare a b), (String.compare b c), (String.compare a c);
    try lia; exfalso; by apply H.
Qed.

Lemma ordinalCompare_apart a b :
  le_by ordinalCompare a b → le_by ordinalCompare b a → a = b.
Proof.
  unfold le_by, ordinalCompare. rewrite (String.compare_antisym a b).
  destruct (String.compare b a) eqn:E; simpl; try lia.
  intros _ _. symmetry. by apply String.compare_eq_iff.
Qed.

Lemma generateKey_order_insensitive_witness :
  generateKey ordinalCompare "/api/users" [("page", JNum 1); ("limit", JNum 10)]
  = generateKey ordinalCompare "/api/users" [("limit", JNum 10); ("page", JNum 1)]
  ∧ generateKey ordinalCompare "e" [("b", JNum 2); ("a", JNum 1)]
    = generateKey ordinalCompare "e" [("a", JNum 1); ("b", JNum 2)]
  ∧ generateKey ordinalCompare "e" [("b", JNum 2); ("a", JNum 1)]
    = "api:e:{" +:+ quote "a" +:+ ":1," +:+ quote "b" +:+ ":2}".
Proof.
  destruct (generateKey_order_insensitive ordinalCompare ordinalCompare_total
              ordinalCompare_trans) as (Hgen & Hab & _).
  split; [|split; [|reflexivity]].
  - apply Hgen.
    + apply perm_swap.
    + unfold Map_wf. apply (bool_decide_unpack _). by vm_compute.
    + intros a b _ _. apply ordinalCompare_apart.
  - apply Hab. unfold le_by. intros _ H. vm_compute in H. by apply H.
Defined.

(** *** A collation that honours canonical equivalence *)

Lemma canonicalCompare_total a b :
  le_by canonicalCompare a b ∨ le_by canonicalCompare b a.
Proof. apply ordinalCompare_total. Qed.

Lemma canonicalCompare_trans a b c :
  le_by canonicalCompare a b → le_by canonicalCompare b c → le_by canonicalCompare a c.
Proof. apply ordinalCompare_trans. Qed.

(** The claim as the specification words it fails in two ways.  For an
    object with two names that are canonically equivalent, such as the
    two spellings of e with an acute accent, [localeCompare] returns 0,
    the stable sort leaves the names in the order they were entered, and
    the key shows that order.  And whatever the collation, only the names
    of [params] itself are sorted: an object inside it is serialized in
    the order its own properties were entered. *)
Lemma generateKey_counterexample :
  (e_acute_composed ≠ e_acute_combining
   ∧ canonicalCompare e_acute_composed e_acute_combining = 0
   ∧ [(e_acute_composed, JNum 1); (e_acute_combining, JNum 2)]
     ≡ₚ [(e_acute_combining, JNum 2); (e_acute_composed, JNum 1)]
   ∧ generateKey canonicalCompare "e"
       [(e_acute_composed, JNum 1); (e_acute_combining, JNum 2)]
     ≠ generateKey canonicalCompare "e"
         [(e_acute_combining, JNum 2); (e_acute_composed, JNum 1)])
  ∧ ([("x", JNum 1); ("y", JNum 2)] ≡ₚ [("y", JNum 2); ("x", JNum 1)]
     ∧ generateKey ordinalCompare "e" [("filter", JObj [("x", JNum 1); ("y", JNum 2)])]
       ≠ generateKey ordinalCompare "e" [("filter", JObj [("y", JNum 2); ("x", JNum 1)])]).
Proof.
  split.
  - split; [discriminate|]. split; [reflexivity|]. split; [apply perm_swap|].
    vm_compute. discriminate.
  - split; [apply perm_swap|]. vm_compute. discriminate.
Qed.

(** ** A delay beyond the range of the timer *)

(** With a TTL of thirty days the delay handed to [setTimeout] exceeds
    [TIMEOUT_MAX]: the timer is due after one millisecond, and once it
    has run the entry is gone, long before it expires. *)
Example timer_overflow_example :
  let s1 := (set 1000 "k" (JNum 1) (Some 2592000) false fresh).2 in
  (get 1002 "k" s1).1 = Fulfilled (JNum 1)
  ∧ (get 1002 "k" (fire 1001 "k" s1)).1 = Fulfilled JNull.
Proof. split; reflexivity. Qed.

(** * Further properties of the cache *)

(** ** Handles belong to entries *)

Lemma linked_log level message metadata s k :
  linked (view k s) → linked (view k (_log level message metadata s)).
Proof. by rewrite view_log. Qed.

Lemma linked_get now key s k : linked (view k s) → linked (view k (get now key s).2).
Proof.
  intros Hs. destruct (decide (key = k)) as [-> | Hne];
    [|by rewrite view_get_other].
  rewrite view_get_same. unfold view in Hs.
  destruct (Map_get k (cache s)) as [e|] eqn:E; [|by unfold view; rewrite E].
  destruct (is_expired now e); [done|]. by destruct (timers s !! k).
Qed.

Lemma linked_set now key value ttl s k :
  linked (view k s) → linked (view k (set now key value ttl false s).2).
Proof.
  intros Hs. destruct (decide (key = k)) as [-> | Hne];
    [|by rewrite view_set_other].
  unfold view, set. cbn [snd cache timers set_stores].
  rewrite Map_get_set, decide_True by done.
  destruct (0 <? default (defaultTTL (_config s)) ttl) eqn:Et.
  - destruct (truthy (Some _)) eqn:E0.
    + by rewrite lookup_insert_eq.
    + by rewrite cancel_timer_delete, lookup_delete_eq.
  - cbn [truthy]. by rewrite cancel_timer_delete, lookup_delete_eq.
Qed.

Lemma linked_cleanup now s k : linked (view k s) → linked (view k (_cleanup now s)).
Proof. intros Hs. rewrite view_cleanup. by case_decide. Qed.

Lemma linked_step op s : (∀ k, linked (view k s)) → ∀ k, linked (view k (step op s)).
Proof.
  intros Hs k.
  destruct op as [|now key|now key|now|now key value ttl roll|key|
                  |now now' key produced ttl roll
                  |options|ttl|now size|l|enabled|now|now key|].
  - by apply linked_log.
  - by apply linked_get.
  - cbn [step]. rewrite has_state. by apply linked_get.
  - apply Hs.
  - change (step (OpSet now key value ttl roll) s)
      with (if roll then _cleanup now (set now key value ttl false s).2
            else (set now key value ttl false s).2).
    destruct roll; [apply linked_cleanup|]; by apply linked_set.
  - cbn [step]. rewrite view_del. by case_decide.
  - cbn [step]. unfold clear. cbn [snd]. rewrite view_log.
    unfold view. simpl. by rewrite lookup_empty.
  - rewrite step_getOrSet. pose proof (linked_get now key s k (Hs k)) as Hg.
    destruct (get now key s).1; [|done]. destruct (not_null _); [done|].
    destruct produced as [value|err]; [|by rewrite view_catch].
    change ((set now' key value (Some (default (defaultTTL (_config s)) ttl)) roll
               (get now key s).2).2)
      with (if roll
            then _cleanup now' (set now' key value
                                  (Some (default (defaultTTL (_config s)) ttl)) false
                                  (get now key s).2).2
            else (set now' key value (Some (default (defaultTTL (_config s)) ttl)) false
                    (get now key s).2).2).
    destruct roll; [apply linked_cleanup|]; by apply linked_set.
  - cbn [step]. rewrite view_setConfig. apply Hs.
  - apply Hs.
  - cbn [step]. unfold setMaxSize. apply linked_cleanup, Hs.
  - apply Hs.
  - apply Hs.
  - cbn [step]. unfold tick. destruct (_cleanupTimer s); [apply linked_cleanup|]; apply Hs.
  - cbn [step]. unfold fire. destruct (timers s !! key) as [t|]; [|apply Hs].
    destruct (due t <=? now); [|apply Hs].
    rewrite view_timer_callback. case_decide; [done | apply Hs].
  - cbn [step]. unfold destroy. rewrite view_log.
    unfold view. simpl. by rewrite lookup_empty.
Qed.

Lemma constructor_empty options s :
  constructor options = Fulfilled s → cache s = [] ∧ timers s = ∅.
Proof.
  intros Hc. unfold constructor in Hc.
  assert (∀ s0, cache (_startCleanupTimer s0) = cache s0
                ∧ timers (_startCleanupTimer s0) = timers s0) as Hstart
    by (intros s0; unfold _startCleanupTimer; by destruct (0 <? _)).
  destruct (logger _); [destruct (enableLogging _); [destruct (has_info _)|]|];
    try done; injection Hc as <-; simpl; apply Hstart.
Qed.

Lemma reachable_linked options s ops k :
  constructor options = Fulfilled s → linked (view k (run ops s)).
Proof.
  intros [Hc Ht]%constructor_empty.
  assert (∀ k, linked (view k s)) as Hs
    by (intros k'; unfold view; by rewrite Hc, Ht, lookup_empty).
  clear Hc Ht. revert k. unfold run. revert s Hs.
  induction ops as [|op ops IH]; intros s Hs; simpl; [done|].
  apply IH. by apply linked_step.
Qed.

(** X1.  In every state a service gets into, the handle in [timers]
    under a key belongs to the entry now stored under that key: it was
    armed when the entry was created and for as long as the entry has to
    live.  And every entry that has an expiry time has its handle. *)
Theorem timers_match_expiry (options : Options) (s : CacheService) (ops : list Op)
    (k : string) :
  constructor options = Fulfilled s →
  let s' := run ops s in
  (∀ h, timers s' !! k = Some h →
        ∃ e, Map_get k (cache s') = Some e
             ∧ created e = armed_at h
             ∧ expires e = Some (armed_at h + delay h))
  ∧ (∀ e, Map_get k (cache s') = Some e → truthy (expires e) = true →
          is_Some (timers s' !! k)).
Proof.
  intros Hc s'. pose proof (reachable_linked options s ops k Hc) as Hl.
  fold s' in Hl. unfold view, linked in Hl. split.
  - intros h Hh. rewrite Hh in Hl.
    destruct (Map_get k (cache s')) as [e|]; [|done].
    destruct Hl as (_ & Ha & Hx). by exists e.
  - intros e He Ht. rewrite He in Hl.
    destruct (timers s' !! k); [done | congruence].
Qed.

Lemma timers_match_expiry_witness :
  let s' := run [OpSet 1000 "a" (JNum 1) (Some 60) false;
                 OpSet 2000 "a" (JNum 2) (Some 30) true;
                 OpGet 2500 "a"] fresh in
  timers s' !! "a" = Some {| armed_at := 2000; delay := 30000 |}
  ∧ ∃ e, Map_get "a" (cache s') = Some e ∧ created e = 2000 ∧ expires e = Some 32000.
Proof.
  intros s'. split; [reflexivity|].
  destruct (proj1 (timers_match_expiry no_options fresh
                     [OpSet 1000 "a" (JNum 1) (Some 60) false;
                      OpSet 2000 "a" (JNum 2) (Some 30) true;
                      OpGet 2500 "a"] "a" eq_refl)
              {| armed_at := 2000; delay := 30000 |} eq_refl)
    as (e & He & Hcr & Hx).
  exists e. split; [exact He|]. split; [exact Hcr | exact Hx].
Defined.

(** ** What a sweep removes *)

Lemma set_stores_same s : set_stores (cache s) (timers s) s = s.
Proof. by destruct s. Qed.

Lemma cleanup_fixed now s :
  expired_keys now (cache s) = [] →
  Z.of_nat (length (cache s)) <= maxSize (_config s) ∨ cache s = [] →
  _cleanup now s = s.
Proof.
  intros He Hsz. unfold _cleanup. rewrite expire_loop_eq, He, without_nil.
  unfold cancel_all, size_pass. cbn [foldl length Nat.add].
  destruct Hsz as [Hle | Hnil].
  - apply Z.ltb_ge in Hle. rewrite Hle. cbn. apply set_stores_same.
  - rewrite Hnil. unfold toRemove. cbn [length Array_sort foldr].
    rewrite take_nil.
    destruct (maxSize (_config s) <? _); cbn; rewrite <- Hnil; apply set_stores_same.
Qed.

Lemma cleanup_survivor now s kv :
  Map_wf (cache s) → kv ∈ cache (_cleanup now s) →
  kv ∈ cache s ∧ is_expired now kv.2 = false.
Proof.
  intros Hwf. rewrite cleanup_cache, without_expired by done. unfold without.
  intros [_ [He Hin]%list_elem_of_filter]%list_elem_of_filter.
  split; [done|]. by destruct (is_expired now kv.2); [destruct He|].
Qed.

Lemma cleanup_none_expired now s :
  Map_wf (cache s) → expired_keys now (cache (_cleanup now s)) = [].
Proof.
  intros Hwf. apply without_none_expired, Forall_forall. intros kv Hin.
  by apply cleanup_survivor in Hin as [_ ?].
Qed.

(** X2.  A sweep is idempotent: run again at the same clock reading it
    changes neither the entries nor the timers nor the configuration, and
    it logs nothing. *)
Theorem cleanup_idempotent (now : Z) (s : CacheService) :
  Map_wf (cache s) → _cleanup now (_cleanup now s) = _cleanup now s.
Proof.
  intros Hwf. apply cleanup_fixed; [by apply cleanup_none_expired|].
  rewrite cleanup_config.
  destruct (decide (0 <= maxSize (_config s))) as [Hm | Hm].
  - left. by apply cleanup_size.
  - right. apply cleanup_nonpositive. lia.
Qed.

Lemma cleanup_idempotent_witness :
  let s := (set 3000 "c" (JNum 3) None false
              (set 2000 "b" (JNum 2) (Some 1) false
                 (set 1000 "a" (JNum 1) None false
                    (setConfig {| opt_defaultTTL := None; opt_maxSize := Some 1;
                                  opt_enableLogging := None; opt_logger := None;
                                  opt_cleanupInterval := None |} fresh)).2).2).2 in
  Map_keys (cache (_cleanup 5000 s)) = ["c"]
  ∧ _cleanup 5000 (_cleanup 5000 s) = _cleanup 5000 s.
Proof.
  intros s. split; [reflexivity|].
  apply (cleanup_idempotent 5000 s). unfold Map_wf. apply (bool_decide_unpack _).
  by vm_compute.
Defined.

(** X3.  A sweep only removes.  What it leaves is a part of the store in
    the same order, every entry as it was and none of them expired; an
    entry that it removes had expired, unless the unexpired entries
    outnumber [maxSize]; and on a store within its bound with nothing
    expired it changes nothing at all. *)
Theorem cleanup_removes_only (now : Z) (s : CacheService) :
  Map_wf (cache s) →
  cache (_cleanup now s) `sublist_of` cache s
  ∧ (∀ k e, Map_get k (cache (_cleanup now s)) = Some e →
            Map_get k (cache s) = Some e ∧ is_expired now e = false)
  ∧ (∀ k e, Map_get k (cache s) = Some e →
            Map_get k (cache (_cleanup now s)) = None →
            is_expired now e = true
            ∨ maxSize (_config s)
              < Z.of_nat (length (filter (λ kv, ¬ is_expired now kv.2) (cache s))))
  ∧ (Z.of_nat (length (cache s)) <= maxSize (_config s) →
     Forall (λ kv, is_expired now kv.2 = false) (cache s) →
     _cleanup now s = s).
Proof.
  intros Hwf. split; [|split; [|split]].
  - rewrite cleanup_cache. unfold without.
    etrans; apply sublist_filter; apply _.
  - intros k e Hget. apply Map_get_Some_elem in Hget as Hin.
    apply cleanup_survivor in Hin as [Hin He]; [|done].
    split; [by apply Map_get_elem | done].
  - intros k e Hget Hgone. destruct (is_expired now e) eqn:He; [by left | right].
    rewrite cleanup_cache, !Map_get_without in Hgone.
    pose proof (expired_keys_get now _ k e Hwf Hget He) as Hne.
    destruct (decide (k ∈ size_victims now s)) as [Hv|]; [|by case_decide; congruence].
    unfold size_victims in Hv. rewrite expire_loop_eq, without_expired in Hv by done.
    destruct (maxSize (_config s) <? _) eqn:E; [|by apply elem_of_nil in Hv].
    by apply Z.ltb_lt in E.
  - intros Hsz Hnone. apply cleanup_fixed; [by apply without_none_expired | by left].
Qed.

Lemma cleanup_removes_only_witness :
  let s := (set 2000 "b" (JNum 2) None false
              (set 1000 "a" (JNum 1) (Some 1) false fresh).2).2 in
  Map_keys (cache (_cleanup 1500 s)) = ["a"; "b"]
  ∧ Map_keys (cache (_cleanup 2500 s)) = ["b"]
  ∧ cache (_cleanup 2500 s) `sublist_of` cache s.
Proof.
  intros s. split; [reflexivity|]. split; [reflexivity|].
  apply (cleanup_removes_only 2500 s). unfold Map_wf. apply (bool_decide_unpack _).
  by vm_compute.
Defined.

(** ** Listing and counting *)

Lemma Map_keys_filter_elem {V} (P : string * V → Prop) `{!∀ x, Decision (P x)}
    (m : list (string * V)) k :
  Map_wf m →
  k ∈ Map_keys (filter P m) ↔ ∃ v, Map_get k m = Some v ∧ P (k, v).
Proof.
  intros Hwf. unfold Map_keys. rewrite list_elem_of_fmap. split.
  - intros [[k' v] [-> [HP Hin]%list_elem_of_filter]]. exists v.
    split; [by apply Map_get_elem | done].
  - intros [v [Hget HP]]. exists (k, v). split; [done|].
    apply list_elem_of_filter. split; [done | by apply Map_get_Some_elem].
Qed.

Lemma keys_unexpired now s :
  keys now s
  = (Fulfilled (Map_keys (filter (λ kv, ¬ is_expired now kv.2) (cache s))), s).
Proof.
  unfold keys. do 3 f_equal. apply filter_iff_elem. intros [k e] _.
  unfold is_expired, lapsed. cbn [snd]. destruct (expires e) as [x|]; cbn.
  - destruct (negb (x =? 0)); cbn; [|by split; [intros _ [] | intros _]].
    destruct (Z.leb_spec now x), (Z.ltb_spec x now); try lia; cbn; tauto.
  - by split; [intros _ [] | intros _].
Qed.

(** X4.  [keys] lists, in the order of the store and without changing
    it, exactly the keys whose entry has not expired: every key that
    [has] reports is listed, for every key listed [get] returns the data
    stored, and right after a sweep the list is the whole store. *)
Theorem keys_lists_unexpired (now : Z) (s : CacheService) :
  Map_wf (cache s) →
  ∃ l, keys now s = (Fulfilled l, s)
       ∧ NoDup l ∧ l `sublist_of` Map_keys (cache s)
       ∧ (∀ k, k ∈ l ↔ ∃ e, Map_get k (cache s) = Some e ∧ is_expired now e = false)
       ∧ (∀ k, (has now k s).1 = Fulfilled true → k ∈ l)
       ∧ (∀ k, k ∈ l → ∃ e, Map_get k (cache s) = Some e
                            ∧ (get now k s).1 = Fulfilled (data e))
       ∧ (keys now (_cleanup now s)).1 = Fulfilled (Map_keys (cache (_cleanup now s))).
Proof.
  intros Hwf. eexists. split; [apply keys_unexpired|].
  assert (∀ k, k ∈ Map_keys (filter (λ kv, ¬ is_expired now kv.2) (cache s))
               ↔ ∃ e, Map_get k (cache s) = Some e ∧ is_expired now e = false) as Hl.
  { intros k. rewrite Map_keys_filter_elem by done. cbn [snd].
    split; intros [e [Hget He]]; exists e; (split; [done|]).
    - by destruct (is_expired now e); [destruct He|].
    - by rewrite He; intros []. }
  split; [by apply Map_wf_filter|].
  split; [apply fmap_sublist, sublist_filter; apply _|].
  split; [done|]. split; [|split].
  - intros k Hhas. apply Hl. unfold has in Hhas.
    pose proof (get_fulfilled now k s) as Hg.
    destruct (get now k s) as [[v|r] s']; cbn in *; [|done].
    injection Hg as ->. injection Hhas as Hv.
    destruct (Map_get k (cache s)) as [e|]; [|done]. exists e. split; [done|].
    by destruct (is_expired now e).
  - intros k [e [Hget He]]%Hl. exists e. split; [done|].
    by rewrite get_fulfilled, Hget, He.
  - rewrite keys_unexpired. cbn [fst]. do 2 f_equal.
    rewrite <- without_expired by by apply cleanup_wf.
    by rewrite cleanup_none_expired, without_nil.
Qed.

Lemma keys_lists_unexpired_witness :
  let s := (set 2000 "b" (JNum 2) None false
              (set 1000 "a" (JNum 1) (Some 1) false fresh).2).2 in
  ∃ l, keys 2500 s = (Fulfilled l, s) ∧ ("a" ∈ l ↔ False) ∧ "b" ∈ l.
Proof.
  intros s.
  destruct (keys_lists_unexpired 2500 s) as (l & Hk & _ & _ & Hl & _).
  { unfold Map_wf. apply (bool_decide_unpack _). by vm_compute. }
  exists l. split; [exact Hk|]. split.
  - split; [|intros []]. intros Ha. apply Hl in Ha as (e & He & Hx).
    vm_compute in He. injection He as <-. vm_compute in Hx. discriminate Hx.
  - apply Hl. eexists. split; reflexivity.
Defined.

Lemma count_expired_filter now c :
  count_expired now c = length (filter (λ kv, is_expired now kv.2) c).
Proof.
  unfold count_expired.
  enough (∀ n, foldl (λ expiredCount kv,
                        if is_expired now kv.2 then S expiredCount else expiredCount) n c
               = (n + length (filter (λ kv, is_expired now kv.2) c))%nat) as H
    by apply (H 0%nat).
  induction c as [|kv c IH]; intros n; cbn [foldl]; [by rewrite Nat.add_0_r|].
  rewrite IH. destruct (is_expired now kv.2) eqn:E.
  - rewrite filter_cons_True by (cbv beta; rewrite E; exact I).
    cbn [length]. by rewrite Nat.add_succ_r.
  - rewrite filter_cons_False; [done|]. cbv beta. rewrite E. intros [].
Qed.

Lemma linked_timers_keys s :
  Map_wf (cache s) → (∀ k, linked (view k s)) →
  (map_to_list (timers s)).*1
  ≡ₚ Map_keys (filter (λ kv, truthy (expires kv.2)) (cache s)).
Proof.
  intros Hwf Hl. apply NoDup_Permutation.
  - apply NoDup_fst_map_to_list.
  - by apply Map_wf_filter.
  - intros k. rewrite Map_keys_filter_elem by done. cbn [snd].
    specialize (Hl k). unfold view, linked in Hl. rewrite list_elem_of_fmap. split.
    + intros [[k' h] [-> Hh%elem_of_map_to_list]]. cbn in *. rewrite Hh in Hl.
      destruct (Map_get k' (cache s)) as [e|]; [|done]. exists e.
      split; [done|]. destruct Hl as [-> _]. done.
    + intros [e [Hget Ht]]. rewrite Hget in Hl.
      destruct (timers s !! k) as [h|] eqn:Hh.
      * exists (k, h). split; [done|]. by apply elem_of_map_to_list.
      * rewrite Hl in Ht. destruct Ht.
Qed.

(** X5.  The statistics of a service add up, whatever it has been
    through: [size] is the number of keys that [keys] lists plus
    [expired]; [timers] is the number of entries that have an expiry
    time, so it is at most [size] and at least [expired]; and right after
    a sweep [expired] is zero. *)
Theorem getStats_accounts (options : Options) (s0 : CacheService) (ops : list Op)
    (now : Z) :
  constructor options = Fulfilled s0 →
  let s := run ops s0 in
  let stats := getStats now s in
  (∃ l, (keys now s).1 = Fulfilled l
        ∧ stats_size stats = (length l + stats_expired stats)%nat)
  ∧ stats_timers stats = length (filter (λ kv, truthy (expires kv.2)) (cache s))
  ∧ (stats_expired stats <= stats_timers stats <= stats_size stats)%nat
  ∧ stats_expired (getStats now (_cleanup now s)) = 0%nat.
Proof.
  intros Hc s stats.
  pose proof (reachable_wf options s0 ops Hc) as Hwf. fold s in Hwf.
  assert (stats_timers stats
          = length (filter (λ kv, truthy (expires kv.2)) (cache s))) as Ht.
  { unfold stats, getStats. cbn [stats_timers].
    rewrite <- length_map_to_list, <- (length_fmap fst).
    rewrite (linked_timers_keys s Hwf); [by unfold Map_keys; rewrite length_fmap|].
    intros k. by apply (reachable_linked options). }
  split; [|split; [done|split]].
  - eexists. split; [by rewrite keys_unexpired|].
    unfold stats, getStats, Map_keys. cbn [stats_size stats_expired].
    rewrite length_fmap, count_expired_filter.
    rewrite <- (filter_app_complement (λ kv, is_expired now kv.2) (cache s)) at 1.
    rewrite length_app. lia.
  - rewrite Ht. split; [|apply length_filter].
    unfold stats, getStats. cbn [stats_expired]. rewrite count_expired_filter.
    apply sublist_length.
    rewrite <- (list_filter_filter_l (λ kv, is_expired now kv.2)
                  (λ kv, truthy (expires kv.2))).
    + apply sublist_filter; apply _.
    + intros [k e] He. cbn [snd] in *. unfold is_expired, lapsed in He.
      by destruct (truthy (expires e)).
  - unfold getStats. cbn [stats_expired]. rewrite count_expired_filter.
    pose proof (cleanup_none_expired now s Hwf) as Hn.
    unfold expired_keys, Map_keys in Hn. apply fmap_nil_inv in Hn. by rewrite Hn.
Qed.

Lemma getStats_accounts_witness :
  let s := run [OpSet 1000 "a" (JNum 1) (Some 1) false;
                OpSet 2000 "b" (JNum 2) (Some 0) false;
                OpSet 3000 "c" (JNum 3) None false] fresh in
  (stats_size (getStats 5000 s), stats_timers (getStats 5000 s),
   stats_expired (getStats 5000 s)) = (3, 2, 1)%nat
  ∧ stats_expired (getStats 5000 (_cleanup 5000 s)) = 0%nat.
Proof.
  intros s. split; [reflexivity|].
  apply (getStats_accounts no_options fresh
           [OpSet 1000 "a" (JNum 1) (Some 1) false;
            OpSet 2000 "b" (JNum 2) (Some 0) false;
            OpSet 3000 "c" (JNum 3) None false] 5000 eq_refl).
Defined.

(** ** Memoisation *)



Lemma get_config now key s : _config (get now key s).2 = _config s.
Proof.
  unfold get. destruct (Map_get key (cache s)) as [entry|]; [|done].
  by destruct (is_expired now entry).
Qed.

Lemma get_cleanupTimer now key s : _cleanupTimer (get now key s).2 = _cleanupTimer s.
Proof.
  unfold get. destruct (Map_get key (cache s)) as [entry|]; [|done].
  by destruct (is_expired now entry).
Qed.



(** ** Only [set] writes *)

(** X7.  No operation other than [set] and [getOrSet] on a key creates an
    entry under it or changes the data, the creation time or the expiry
    time of its entry: after any history without such a call, the entry
    under the key, if there is one, is the one that was there before, but
    for the time of its last access.  A key that was absent is absent. *)
Theorem only_set_writes (k : string) (ops : list Op) (s : CacheService) :
  Forall (λ op, rewrites k op = false) ops →
  (∀ e', Map_get k (cache (run ops s)) = Some e' →
         ∃ e, Map_get k (cache s) = Some e ∧ same_entry e e')
  ∧ (Map_get k (cache s) = None → Map_get k (cache (run ops s)) = None).
Proof.
  intros Hops.
  assert (∀ e', Map_get k (cache (run ops s)) = Some e' →
                ∃ e, Map_get k (cache s) = Some e ∧ same_entry e e') as H.
  { revert s. induction Hops as [|op ops Hop Hops IH]; intros s e' Hget.
    - exists e'. by split.
    - change (run (op :: ops) s) with (run ops (step op s)) in Hget.
      apply IH in Hget as (e1 & Hget1 & (Hd1 & Hc1 & Hx1)).
      apply step_fades in Hget1 as (e & Hget & (Hd & Hc & Hx)); [|done].
      exists e. split; [done|]. unfold same_entry. by rewrite Hd1, Hc1, Hx1. }
  split; [done|]. intros Hnone.
  destruct (Map_get k (cache (run ops s))) as [e'|] eqn:E; [|done].
  destruct (H e' eq_refl) as (e & He & _). congruence.
Qed.

Lemma only_set_writes_witness :
  let s := (set 1000 "k" (JStr "v") (Some 60) false fresh).2 in
  let ops := [OpGet 2000 "k"; OpSet 3000 "other" JNull None true; OpTick 4000;
              OpSetMaxSize 5000 10; OpHas 6000 "k"] in
  Map_get "k" (cache (run ops s))
  = Some {| data := JStr "v"; created := 1000; lastAccessed := 6000;
            expires := Some 61000 |}
  ∧ ∃ e, Map_get "k" (cache s) = Some e
         ∧ same_entry e {| data := JStr "v"; created := 1000; lastAccessed := 6000;
                           expires := Some 61000 |}.
Proof.
  intros s ops. split; [reflexivity|].
  apply (proj1 (only_set_writes "k" ops s ltac:(each_of_list ltac:(reflexivity)))).
  reflexivity.
Defined.

(** ** The periodic sweep *)

Lemma set_control now key value ttl roll s :
  _config (set now key value ttl roll s).2 = _config s
  ∧ _cleanupTimer (set now key value ttl roll s).2 = _cleanupTimer s.
Proof.
  unfold set. cbn [snd].
  destruct roll; by rewrite ?cleanup_config, ?cleanup_cleanupTimer.
Qed.

Lemma catch_control key err s :
  _config (getOrSet_catch key err s).2 = _config s
  ∧ _cleanupTimer (getOrSet_catch key err s).2 = _cleanupTimer s.
Proof.
  destruct (catch_state key err s) as [-> | (m & md & ->)]; [done|].
  by rewrite log_config, log_cleanupTimer.
Qed.

Lemma step_control op s :
  _cleanupTimer (step op s)
  = match op with
    | OpSetConfig options =>
        match opt_cleanupInterval options with
        | Some i => if 0 <? i then Some i else None
        | None => _cleanupTimer s
        end
    | OpDestroy => None
    | _ => _cleanupTimer s
    end
  ∧ cleanupInterval (_config (step op s))
    = match op with
      | OpSetConfig options =>
          default (cleanupInterval (_config s)) (opt_cleanupInterval options)
      | _ => cleanupInterval (_config s)
      end.
Proof.
  destruct op as [|now key|now key|now|now key value ttl roll|key|
                  |now now' key produced ttl roll
                  |options|ttl|now size|l|enabled|now|now key|].
  - cbn [step]. unfold init. cbn [snd]. by rewrite log_config, log_cleanupTimer.
  - cbn [step]. by rewrite get_config, get_cleanupTimer.
  - cbn [step]. by rewrite has_state, get_config, get_cleanupTimer.
  - done.
  - cbn [step]. destruct (set_control now key value ttl roll s) as [-> ->]. done.
  - done.
  - cbn [step]. unfold clear. cbn [snd]. by rewrite log_config, log_cleanupTimer.
  - rewrite step_getOrSet. destruct (get now key s).1.
    + destruct (not_null _); [by rewrite get_config, get_cleanupTimer|].
      destruct produced as [value|err].
      * destruct (set_control now' key value
                    (Some (default (defaultTTL (_config s)) ttl)) roll
                    (get now key s).2) as [-> ->].
        by rewrite get_config, get_cleanupTimer.
      * destruct (catch_control key err (get now key s).2) as [-> ->].
        by rewrite get_config, get_cleanupTimer.
    + by rewrite get_config, get_cleanupTimer.
  - cbn [step]. unfold setConfig, _startCleanupTimer, _stopCleanupTimer.
    destruct options as [o1 o2 o3 o4 [i|]]; cbn; [|done].
    destruct (_cleanupTimer s) eqn:E; cbn; destruct (0 <? i); cbn; by rewrite ?E.
  - done.
  - cbn [step]. unfold setMaxSize. by rewrite cleanup_config, cleanup_cleanupTimer.
  - done.
  - done.
  - cbn [step]. unfold tick.
    destruct (_cleanupTimer s) eqn:E; by rewrite ?cleanup_config, ?cleanup_cleanupTimer.
  - cbn [step]. unfold fire. destruct (timers s !! key); [|done].
    by destruct (due _ <=? now).
  - cbn [step]. unfold destroy. rewrite log_config, log_cleanupTimer.
    unfold _stopCleanupTimer. destruct (_cleanupTimer s) eqn:E; cbn; by rewrite ?E.
Qed.

Lemma set_then_get now r k v ttl roll s :
  Map_wf (cache s) →
  sweep_spares k (OpSet now k v ttl roll) s = true →
  lapsed r (let t := default (defaultTTL (_config s)) ttl in
            if 0 <? t then Some (now + t * 1000) else None) = false →
  (get r k (set now k v ttl roll s).2).1 = Fulfilled v.
Proof.
  intros Hwf Hsp Hr. cbv zeta in Hr.
  pose proof (set_holds now k v ttl roll s Hwf Hsp) as Hs1. cbv zeta in Hs1.
  refine (get_holds r k v _ _ _ (Hs1 _) Hr).
  destruct (Z.ltb_spec 0 (default (defaultTTL (_config s)) ttl)); [|done].
  apply lapsed_before. lia.
Qed.

(** X8.  [destroy] empties the store, cancels every handle and stops the
    periodic sweep, which stays stopped until a [setConfig] gives a
    positive [cleanupInterval]: a tick of the interval timer finds nothing
    armed.  The instance itself stays usable: what is stored after
    [destroy] is served like any other entry. *)
Theorem destroy_stops_sweep (s : CacheService) :
  cache (destroy s) = [] ∧ timers (destroy s) = ∅
  ∧ _config (destroy s) = _config s
  ∧ (∀ ops, Forall (λ op, rearms op = false) ops →
            _cleanupTimer (run ops (destroy s)) = None
            ∧ ∀ now, tick now (run ops (destroy s)) = run ops (destroy s))
  ∧ (∀ now r k v ttl,
       lapsed r (let t := default (defaultTTL (_config s)) ttl in
                 if 0 <? t then Some (now + t * 1000) else None) = false →
       (get r k (set now k v ttl false (destroy s)).2).1 = Fulfilled v).
Proof.
  assert (cache (destroy s) = [] ∧ timers (destroy s) = ∅
          ∧ _config (destroy s) = _config s) as (Hc & Ht & Hcfg).
  { unfold destroy. rewrite log_cache, log_timers, log_config.
    unfold _stopCleanupTimer. by destruct (_cleanupTimer s). }
  split; [done|]. split; [done|]. split; [done|]. split.
  - intros ops Hops.
    assert (_cleanupTimer (run ops (destroy s)) = None) as Hnone.
    { pose proof (proj1 (step_control OpDestroy s)) as H0. cbn [step] in H0.
      revert H0. generalize (destroy s). clear Hc Ht Hcfg.
      induction Hops as [|op ops Hop Hops IH]; intros s0 H0; [done|].
      change (run (op :: ops) s0) with (run ops (step op s0)).
      apply IH. rewrite (proj1 (step_control op s0)).
      destruct op; try done. cbn in Hop.
      destruct (opt_cleanupInterval options) as [i|]; [|done]. by rewrite Hop. }
    split; [done|]. intros now. unfold tick. by rewrite Hnone.
  - intros now r k v ttl Hr. apply set_then_get; [by rewrite Hc; apply NoDup_nil | done |].
    by rewrite Hcfg.
Qed.

Lemma destroy_stops_sweep_witness :
  let s := (set 1000 "a" (JNum 1) (Some 60) false fresh).2 in
  let ops := [OpSet 2000 "b" (JNum 2) (Some 1) false; OpSetMaxSize 2500 5;
              OpSetConfig {| opt_defaultTTL := None; opt_maxSize := Some 1;
                             opt_enableLogging := None; opt_logger := None;
                             opt_cleanupInterval := Some 0 |}] in
  _cleanupTimer (run ops (destroy s)) = None
  ∧ Map_keys (cache (tick 9000 (run ops (destroy s)))) = ["b"].
Proof.
  intros s ops.
  destruct (destroy_stops_sweep s) as (_ & _ & _ & Hops & _).
  destruct (Hops ops) as [Hnone Htick]; [each_of_list ltac:(reflexivity)|].
  split; [exact Hnone|]. rewrite Htick. reflexivity.
Defined.

(** X9.  The periodic sweep follows the configuration.  In every state a
    service gets into, an armed interval timer has the configured
    [cleanupInterval], which is positive; and unless the service was
    destroyed the timer is armed exactly when [cleanupInterval] is
    positive, so that each of its ticks is a sweep: it leaves no expired
    entry and, for a [maxSize] that is not negative, at most [maxSize]
    entries. *)
Theorem periodic_sweep_follows_config (options : Options) (s : CacheService)
    (ops : list Op) :
  constructor options = Fulfilled s →
  let s' := run ops s in
  (∀ i, _cleanupTimer s' = Some i → i = cleanupInterval (_config s') ∧ 0 < i)
  ∧ (Forall (λ op, destroys op = false) ops →
     _cleanupTimer s' = (if 0 <? cleanupInterval (_config s')
                         then Some (cleanupInterval (_config s')) else None)
     ∧ (0 < cleanupInterval (_config s') →
        ∀ now, tick now s' = _cleanup now s'
               ∧ expired_keys now (cache (tick now s')) = []
               ∧ (0 <= maxSize (_config s') →
                  Z.of_nat (length (cache (tick now s'))) <= maxSize (_config s')))).
Proof.
  intros Hc s'.
  pose proof (reachable_wf options s ops Hc) as Hwf. fold s' in Hwf.
  assert (_cleanupTimer s = (if 0 <? cleanupInterval (_config s)
                             then Some (cleanupInterval (_config s)) else None)) as H0.
  { unfold constructor in Hc.
    assert (∀ c, let s0 := _startCleanupTimer
                             {| cache := []; timers := ∅; _config := c;
                                _cleanupTimer := None; sink := [] |} in
                 _cleanupTimer s0 = (if 0 <? cleanupInterval (_config s0)
                                     then Some (cleanupInterval (_config s0)) else None))
      as Hstart.
    { intros c. unfold _startCleanupTimer. cbn.
      destruct (0 <? cleanupInterval c) eqn:E; cbn; by rewrite E. }
    destruct (logger _); [destruct (enableLogging _); [destruct (has_info _)|]|];
      try done; injection Hc as <-; apply Hstart. }
  clear Hc. split.
  - assert (∀ i, _cleanupTimer s = Some i → i = cleanupInterval (_config s) ∧ 0 < i)
      as Hinv.
    { intros i Hi. rewrite H0 in Hi.
      destruct (Z.ltb_spec 0 (cleanupInterval (_config s))); [|done].
      by injection Hi as <-. }
    clear H0 Hwf. subst s'. revert s Hinv.
    induction ops as [|op ops IH]; intros s Hinv; [done|].
    change (run (op :: ops) s) with (run ops (step op s)). apply IH.
    intros i. destruct (step_control op s) as [-> ->].
    destruct op; try apply Hinv; [|done].
    destruct (opt_cleanupInterval options0) as [j|]; [|apply Hinv]. cbn.
    destruct (Z.ltb_spec 0 j); [|done]. by intros [= <-].
  - intros Hops.
    assert (_cleanupTimer s' = (if 0 <? cleanupInterval (_config s')
                                then Some (cleanupInterval (_config s')) else None))
      as Harmed.
    { clear Hwf. subst s'. revert s H0.
      induction Hops as [|op ops Hop Hops IH]; intros s H0; [done|].
      change (run (op :: ops) s) with (run ops (step op s)). apply IH.
      destruct (step_control op s) as [-> ->].
      destruct op; try done.
      destruct (opt_cleanupInterval options0) as [j|]; [|done]. done. }
    split; [done|]. intros Hpos now.
    assert (tick now s' = _cleanup now s') as Htick.
    { unfold tick. rewrite Harmed. apply Z.ltb_lt in Hpos. by rewrite Hpos. }
    rewrite Htick. split; [done|]. split; [by apply cleanup_none_expired|].
    intros Hm. by apply cleanup_size.
Qed.

Lemma periodic_sweep_follows_config_witness :
  let ops := [OpSet 1000 "a" (JNum 1) (Some 1) false;
              OpSetConfig {| opt_defaultTTL := None; opt_maxSize := Some 1;
                             opt_enableLogging := None; opt_logger := None;
                             opt_cleanupInterval := Some 500 |};
              OpSet 1500 "b" (JNum 2) None false;
              OpSet 1600 "c" (JNum 3) None false] in
  _cleanupTimer (run ops fresh) = Some 500
  ∧ Map_keys (cache (run ops fresh)) = ["a"; "b"; "c"]
  ∧ Z.of_nat (length (cache (tick 5000 (run ops fresh)))) <= 1.
Proof.
  intros ops.
  destruct (periodic_sweep_follows_config no_options fresh ops eq_refl)
    as [_ Harmed].
  destruct Harmed as [Ht Htick]; [each_of_list ltac:(reflexivity)|].
  split; [exact Ht|]. split; [reflexivity|].
  destruct (Htick ltac:(reflexivity) 5000) as (_ & _ & Hsize).
  apply Hsize. by vm_compute.
Defined.

(** ** The timer of an entry *)

(** X16.  The timer armed by [set] and the expiry time agree only while
    the delay fits the range of [setTimeout].  For a time to live of [t]
    seconds with [t * 1000 <= TIMEOUT_MAX] the timer does not run before
    the entry expires; with [t * 1000 > TIMEOUT_MAX] it is due one
    millisecond after the call, and once it has run the entry is gone,
    although it would not expire for more than 24 days. *)
Theorem timer_within_range (s : CacheService) (now : Z) (k : string) (v : jsval)
    (ttl : option Z) (roll : bool) :
  let t := default (defaultTTL (_config s)) ttl in
  let s1 := (set now k v ttl roll s).2 in
  Map_wf (cache s) →
  sweep_spares k (OpSet now k v ttl roll) s = true →
  0 <= now → 0 < t →
  (t * 1000 <= TIMEOUT_MAX → ∀ r, r < now + t * 1000 → fire r k s1 = s1)
  ∧ (TIMEOUT_MAX < t * 1000 →
     (∀ r, r <= now + t * 1000 → (get r k s1).1 = Fulfilled v)
     ∧ ∀ r r', now + 1 <= r →
               view k (fire r k s1) = (None, None)
               ∧ (get r' k (fire r k s1)).1 = Fulfilled JNull).
Proof.
  intros t s1 Hwf Hsp Hnow Ht.
  pose proof (set_holds now k v ttl roll s Hwf Hsp) as Hholds.
  cbv zeta in Hholds. fold t s1 in Hholds. clearbody s1. clearbody t.
  rewrite (proj2 (Z.ltb_lt 0 t)) in Hholds by done.
  assert (truthy (Some (now + t * 1000)) = true) as Htruthy
    by (cbn; apply negb_true_iff, Z.eqb_neq; lia).
  rewrite Htruthy in Hholds.
  specialize (Hholds (lapsed_before now (now + t * 1000) ltac:(lia))).
  pose proof Hholds as (_ & _ & Htimer).
  split.
  - intros Hrange r Hr. unfold fire. rewrite Htimer. unfold due. cbn [armed_at delay].
    rewrite (proj2 (Z.leb_le 1 _)), (proj2 (Z.leb_le _ TIMEOUT_MAX)) by lia.
    cbn [andb]. by rewrite (proj2 (Z.leb_gt _ _)) by lia.
  - intros Hover. split.
    + intros r Hr. exact (get_holds r k v _ _ s1 Hholds (lapsed_before _ _ Hr)).
    + intros r r' Hr.
      assert (fire r k s1 = timer_callback k s1) as ->.
      { unfold fire. rewrite Htimer. unfold due. cbn [armed_at delay].
        rewrite (proj2 (Z.leb_gt _ TIMEOUT_MAX)) by lia.
        rewrite andb_false_r. by rewrite (proj2 (Z.leb_le _ _)) by lia. }
      pose proof (view_timer_callback k k s1) as Hview.
      rewrite decide_True in Hview by done. split; [done|].
      assert (Map_get k (cache (timer_callback k s1)) = None) as Hget
        by (unfold view in Hview; congruence).
      by rewrite get_fulfilled, Hget.
Qed.

Lemma timer_within_range_witness :
  let s1 := (set 1000 "k" (JNum 1) (Some 2592000) false fresh).2 in
  (get 2592001000 "k" s1).1 = Fulfilled (JNum 1)
  ∧ (get 1002 "k" (fire 1001 "k" s1)).1 = Fulfilled JNull.
Proof.
  intros s1.
  destruct (timer_within_range fresh 1000 "k" (JNum 1) (Some 2592000) false)
    as [_ Hover].
  - unfold Map_wf. apply (bool_decide_unpack _). by vm_compute.
  - reflexivity.
  - lia.
  - by vm_compute.
  - destruct Hover as [Hlive Hgone]; [by vm_compute|]. split.
    + apply Hlive. by vm_compute.
    + apply (Hgone 1001 1002). lia.
Defined.

(** * Properties of the controller *)

(** ** The body of an error response *)

Lemma own_properties_self {V : Type} (o : list (string * V)) : own_properties o ≡ₚ o.
Proof.
  unfold own_properties. rewrite Array_sort_perm.
  assert ((omap indexed o).*2 = filter (λ kv, ¬ (array_index kv.1 = None)) o) as ->.
  { induction o as [|kv o IH]; [done|]. cbn [omap list_omap]. unfold indexed at 1.
    destruct (array_index kv.1) eqn:E.
    - rewrite filter_cons_True by (by rewrite E). cbn. by rewrite <- IH.
    - rewrite filter_cons_False by (rewrite E; by intros H; apply H). done. }
  rewrite Permutation_app_comm. apply filter_app_complement.
Qed.

Lemma spread_get_other (l base : jsobj) k :
  k ∉ l.*1 → Map_get k (foldl (λ o kv, Map_set kv.1 kv.2 o) base l) = Map_get k base.
Proof.
  revert base. induction l as [|[k' v'] l IH]; intros base Hk; [done|].
  cbn [foldl fst snd]. cbn in Hk. apply not_elem_of_cons in Hk as [Hne Hk].
  rewrite IH by done. rewrite Map_get_set. by rewrite decide_False.
Qed.

Lemma spread_get (l base : jsobj) k v :
  NoDup l.*1 → (k, v) ∈ l →
  Map_get k (foldl (λ o kv, Map_set kv.1 kv.2 o) base l) = Some v.
Proof.
  revert base. induction l as [|[k' v'] l IH]; intros base Hnd Hin.
  - by apply elem_of_nil in Hin.
  - cbn in Hnd. apply NoDup_cons in Hnd as [Hk' Hnd].
    cbn [foldl fst snd]. apply elem_of_cons in Hin as [[= -> ->] | Hin].
    + rewrite spread_get_other by done. rewrite Map_get_set. by rewrite decide_True.
    + by apply IH.
Qed.

Lemma spread_into_get (base details : jsobj) k :
  Map_wf details →
  Map_get k (spread_into base details)
  = match Map_get k details with Some v => Some v | None => Map_get k base end.
Proof.
  intros Hwf. unfold spread_into.
  assert (NoDup (own_properties details).*1) as Hnd
    by (by rewrite own_properties_self).
  destruct (Map_get k details) as [v|] eqn:E.
  - apply spread_get; [done|]. rewrite own_properties_self.
    by apply Map_get_Some_elem.
  - apply spread_get_other. rewrite own_properties_self. by apply Map_get_None.
Qed.

Lemma Map_set_same {V} k (v : V) m : Map_get k m = Some v → Map_set k v m = m.
Proof.
  induction m as [|[k' w] m IH]; [done|]. cbn.
  case_decide; [by intros [= ->]; subst | by intros ->%IH].
Qed.

(** X10.  What [sendError] sends does not depend on [includeStackTrace]:
    the body is [{success: false, error}] where [error] is the message,
    the status code and the timestamp with every property of [details]
    spread over them, so that a [stack] given in [details] is sent
    whether the flag is set or not, and a detail named [message], [code]
    or [timestamp] replaces that field. *)
Theorem sendError_body (toISOString : Z → string) (now : Z) (message : string)
    (statusCode : Z) (details : jsobj) (this : BaseController) :
  Map_wf details →
  let standard := [("message", JStr message); ("code", JNum statusCode);
                   ("timestamp", JStr (toISOString now))] in
  ∃ err,
    (sendError toISOString now message statusCode details this).1
    = Send statusCode (JObj [("success", JBool false); ("error", JObj err)])
    ∧ (∀ this', (sendError toISOString now message statusCode details this').1
                = (sendError toISOString now message statusCode details this).1)
    ∧ (∀ k v, Map_get k details = Some v → Map_get k err = Some v)
    ∧ (∀ k, Map_get k details = None → Map_get k err = Map_get k standard).
Proof.
  intros Hwf standard.
  assert (∀ this0, (sendError toISOString now message statusCode details this0).1
                   = Send statusCode (JObj [("success", JBool false);
                                            ("error", JObj (spread_into standard details))]))
    as Hbody.
  { intros this0. unfold sendError. cbn [fst]. fold standard.
    destruct (includeStackTrace (ctl_config this0)); [|done]. cbn [andb].
    destruct (js_truthy (obj_get "stack" details)) eqn:Et; [|done].
    unfold obj_assign. rewrite decide_False by done.
    rewrite Map_set_same; [done|]. rewrite spread_into_get by done.
    unfold obj_get in *. by destruct (Map_get "stack" details). }
  exists (spread_into standard details).
  split; [apply Hbody|]. split; [intros this'; by rewrite !Hbody|].
  split.
  - intros k v Hk. by rewrite spread_into_get, Hk.
  - intros k Hk. by rewrite spread_into_get, Hk.
Qed.

Lemma sendError_body_witness :
  let controller (flag : bool) :=
    {| ctl_config := {| ctl_enableLogging := false; ctl_logger := None;
                        includeStackTrace := flag;
                        defaultPaginationLimit := 10; maxPaginationLimit := 100 |};
       ctl_sink := [] |} in
  let details := [("stack", JStr "Error: boom at handler.js:1")] in
  (sendError (λ _, "2026-01-01T00:00:00.000Z") 0 "Internal server error" 500
     details (controller false)).1
  = Send 500
      (JObj [("success", JBool false);
             ("error", JObj [("message", JStr "Internal server error");
                             ("code", JNum 500);
                             ("timestamp", JStr "2026-01-01T00:00:00.000Z");
                             ("stack", JStr "Error: boom at handler.js:1")])])
  ∧ (sendError (λ _, "2026-01-01T00:00:00.000Z") 0 "Internal server error" 500
       details (controller true)).1
    = (sendError (λ _, "2026-01-01T00:00:00.000Z") 0 "Internal server error" 500
         details (controller false)).1.
Proof.
  intros controller details. split; [reflexivity|].
  destruct (sendError_body (λ _, "2026-01-01T00:00:00.000Z") 0 "Internal server error"
              500 details (controller false))
    as (err & _ & Hsame & _).
  - unfold Map_wf. apply (bool_decide_unpack _). by vm_compute.
  - apply Hsame.
Defined.

Lemma ctl_log_config level message metadata this :
  ctl_config (ctl_log level message metadata this) = ctl_config this.
Proof. unfold ctl_log. destruct (ctl_logger _); [destruct (_ && _)|]; done. Qed.

(** X15.  What [handleDbError] sends.  The status is 500, but the [code]
    in the body is the [code] of the database error, which the details
    spread over the status code ([undefined] when the error has none).
    Without [includeStackTrace] the body carries the fixed message
    "Database error occurred" and no stack; with it, the message and the
    stack of the error. *)
Theorem handleDbError_body (toISOString : Z → string) (now : Z) (err : DbError)
    (operation : string) (this : BaseController) :
  (handleDbError toISOString now err operation this).1
  = Send 500
      (JObj [("success", JBool false);
             ("error",
              JObj ([("message", JStr (if includeStackTrace (ctl_config this)
                                       then err_message err
                                       else "Database error occurred"));
                     ("code", err_code err);
                     ("timestamp", JStr (toISOString now));
                     ("operation", JStr operation)]
                    ++ (if includeStackTrace (ctl_config this)
                        then [("stack", err_stack err)] else []))%list)]).
Proof.
  unfold handleDbError, sendError. cbn [fst]. rewrite ctl_log_config.
  destruct (includeStackTrace (ctl_config this)); cbn [andb app].
  - destruct (js_truthy _); reflexivity.
  - reflexivity.
Qed.

(** ** The rate limiter *)

Lemma Map_set_length {V} k (v : V) m :
  length (Map_set k v m) = (length m + if Map_has k m then 0 else 1)%nat.
Proof.
  unfold Map_has. induction m as [|[k' w] m IH]; [done|]. cbn.
  case_decide; cbn; [lia|]. rewrite IH. destruct (Map_get k m); lia.
Qed.


Lemma room_spares key now v ttl roll s :
  room_for key s → sweep_spares key (OpSet now key v ttl roll) s = true.
Proof.
  intros Hroom. unfold sweep_spares. destruct roll; [|done]. cbn [sweeps presweep].
  apply bool_decide_eq_true. unfold size_victims. rewrite expire_loop_eq.
  destruct (maxSize _ <? _) eqn:E; [|apply not_elem_of_nil].
  exfalso. apply Z.ltb_lt in E. revert E.
  set (s1 := (set now key v ttl false s).2).
  set (D := expired_keys now (cache s1)).
  pose proof (length_filter (λ kv : string * CacheEntry, kv.1 ∉ D) (cache s1)) as Hlen.
  fold (without D (cache s1)) in Hlen.
  assert (length (cache s1) = length (cache s) + if Map_has key (cache s) then 0 else 1)%nat
    as Hs1 by apply Map_set_length.
  change (_config s1) with (_config s). unfold room_for in Hroom.
  clearbody D. clearbody s1. intros E.
  destruct (Map_has key (cache s)); lia.
Qed.

Lemma get_room now key s : room_for key s → room_for key (get now key s).2.
Proof.
  unfold room_for. intros Hroom. rewrite get_config. revert Hroom.
  unfold get, Map_has. destruct (Map_get key (cache s)) as [entry|] eqn:E.
  - destruct (is_expired now entry); cbn [snd cache set_stores].
    + rewrite Map_get_delete, decide_True by done.
      pose proof (length_filter_lt (λ kv : string * CacheEntry, kv.1 ≠ key) (cache s)
                    (key, entry) (Map_get_Some_elem _ _ _ E)
                    (λ H : key ≠ key, H eq_refl)) as Hlt.
      unfold Map_delete. intros Hroom. lia.
    + rewrite Map_get_set, decide_True by done. rewrite Map_set_length.
      unfold Map_has. rewrite E. lia.
  - cbn. by rewrite E.
Qed.



Section RateLimit.
Variable toISOString : Z → string.
Context {Req : Type}.
Variable keyOf : Req → Outcome string.
Variable at_least : jsval → Z → bool.
Variable plus_one : jsval → jsval.

(** On numbers the two operators are [>=] and [+ 1]. *)
Hypothesis at_least_number : ∀ m n, at_least (JNum m) n = (n <=? m).
Hypothesis plus_one_number : ∀ m, plus_one (JNum m) = JNum (m + 1).

Lemma rateLimit_run options now now' roll req id c this cached n :
  keyOf req = Fulfilled id →
  (get now ("rateLimit:" +:+ id) c).1 = Fulfilled cached →
  cached = JNull ∧ n = 0 ∨ cached = JNum n →
  let key := "rateLimit:" +:+ id in
  let seconds := window_seconds (windowMs options) in
  rateLimit toISOString keyOf at_least plus_one options now now' roll req (c, this)
  = if maxRequests options <=? n
    then (Fulfilled
            (Send 429
               (JObj [("success", JBool false);
                      ("error", JObj [("message", JStr "Too many requests");
                                      ("code", JNum 429);
                                      ("timestamp", JStr (toISOString now'));
                                      ("retryAfter", JNum seconds)])])),
          ((get now key c).2,
           ctl_log error "API Error: Too many requests"
             [("statusCode", JNum 429);
              ("details", JObj [("retryAfter", JNum seconds)]);
              ("stack", JUndefined)] this))
    else (Fulfilled Next,
          ((set now' key (JNum (n + 1)) (Some seconds) roll (get now key c).2).2, this)).
Proof.
  intros Hid Hget Hcached key seconds. unfold rateLimit. rewrite Hid. fold key.
  fold key in Hget. destruct (get now key c) as [o cg]. cbn in Hget. subst o.
  cbn [snd].
  assert ((if js_truthy cached then cached else JNum 0) = JNum n) as ->.
  { destruct Hcached as [[-> ->] | ->]; [done|]. cbn.
    destruct (Z.eqb_spec n 0) as [->|]; done. }
  rewrite at_least_number, plus_one_number. fold seconds.
  destruct (maxRequests options <=? n); [|done].
  unfold sendError. cbn [obj_get Map_get]. rewrite andb_false_r. reflexivity.
Qed.


(** X11.  One request through the rate limiter.  With [n] the count the
    cache returns for the client ([0] when it returns nothing), a request
    with [n >= maxRequests] is answered with status 429 and
    [retryAfter], the window in seconds, and leaves the client's entry as
    the read left it: a refused request does not extend the window.  A
    request with [n < maxRequests] is passed on and stores [n + 1] for a
    whole new window: the count expires [ceil(windowMs / 1000)] seconds
    after the last request that was let through, and never when that
    number is zero or less. *)
Theorem rateLimit_step (options : RateLimitOptions) (now now' : Z) (roll : bool)
    (req : Req) (id : string) (c : CacheService) (this : BaseController)
    (cached : jsval) (n : Z) :
  let key := "rateLimit:" +:+ id in
  let seconds := window_seconds (windowMs options) in
  let x := if 0 <? seconds then Some (now' + seconds * 1000) else None in
  let out := rateLimit toISOString keyOf at_least plus_one options now now' roll req
               (c, this) in
  keyOf req = Fulfilled id →
  Map_wf (cache c) → room_for key c →
  (get now key c).1 = Fulfilled cached →
  cached = JNull ∧ n = 0 ∨ cached = JNum n →
  if maxRequests options <=? n
  then out.1 = Fulfilled
                 (Send 429
                    (JObj [("success", JBool false);
                           ("error", JObj [("message", JStr "Too many requests");
                                           ("code", JNum 429);
                                           ("timestamp", JStr (toISOString now'));
                                           ("retryAfter", JNum seconds)])]))
       ∧ out.2.1 = (get now key c).2
  else out.1 = Fulfilled Next ∧ out.2.2 = this
       ∧ holds key (JNum (n + 1)) x
           (if truthy x then Some {| armed_at := now'; delay := seconds * 1000 |}
            else None) out.2.1
       ∧ (∀ r, lapsed r x = false → (get r key out.2.1).1 = Fulfilled (JNum (n + 1))).
Proof.
  intros key seconds x out Hid Hwf Hroom Hget Hcached.
  pose proof (rateLimit_run options now now' roll req id c this cached n
                Hid Hget Hcached) as Hrun.
  cbv zeta in Hrun. fold key seconds in Hrun. unfold out. rewrite Hrun. clear Hrun out.
  destruct (maxRequests options <=? n); cbn [fst snd]; [done|].
  split; [done|]. split; [done|].
  pose proof (set_holds now' key (JNum (n + 1)) (Some seconds) roll _
                (get_wf now key c Hwf)
                (room_spares _ _ _ _ _ _ (get_room now key c Hroom))) as Hholds.
  cbv zeta in Hholds. cbn [default from_option Datatypes.id] in Hholds.
  fold x in Hholds.
  assert (lapsed now' x = false) as Hx.
  { unfold x. destruct (Z.ltb_spec 0 seconds); [|done]. apply lapsed_before. lia. }
  specialize (Hholds Hx). split; [done|].
  intros r Hr. by apply (get_holds r key _ x _ _ Hholds).
Qed.


End RateLimit.

Lemma rateLimit_step_witness :
  let options := {| opt_windowMs := Some 1500; opt_maxRequests := Some 1 |} in
  let controller := {| ctl_config := {| ctl_enableLogging := false; ctl_logger := None;
                                        includeStackTrace := false;
                                        defaultPaginationLimit := 10;
                                        maxPaginationLimit := 100 |};
                       ctl_sink := [] |} in
  let middleware now now' st :=
    rateLimit (λ _, "t") (λ ip : string, Fulfilled ip) number_at_least number_plus_one
      options now now' false "10.0.0.1" st in
  (middleware 1000 1001 (fresh, controller)).1 = Fulfilled Next
  ∧ holds "rateLimit:10.0.0.1" (JNum 1) (Some 3001)
      (Some {| armed_at := 1001; delay := 2000 |})
      (middleware 1000 1001 (fresh, controller)).2.1
  ∧ (middleware 2000 2001 (middleware 1000 1001 (fresh, controller)).2).1
    = Fulfilled
        (Send 429
           (JObj [("success", JBool false);
                  ("error", JObj [("message", JStr "Too many requests");
                                  ("code", JNum 429);
                                  ("timestamp", JStr "t");
                                  ("retryAfter", JNum 2)])])).
Proof.
  intros options controller middleware.
  pose proof (rateLimit_step (λ _, "t") (λ ip : string, Fulfilled ip)
                number_at_least number_plus_one
                ltac:(reflexivity) ltac:(reflexivity)
                options 1000 1001 false "10.0.0.1" "10.0.0.1" fresh controller
                JNull 0 eq_refl) as H.
  cbv zeta in H. destruct H as (Hnext & _ & Hholds & _).
  - unfold Map_wf. apply (bool_decide_unpack _). by vm_compute.
  - unfold room_for. by vm_compute.
  - reflexivity.
  - by left.
  - split; [exact Hnext|]. split; [exact Hholds|]. reflexivity.
Defined.


(** X13.  The rate limiter fails open.  Over this cache, whose [get] and
    [set] never fail, a request whose key can be made is either passed on
    or answered with status 429, the latter only when the count read is
    at least [maxRequests].  When making the key throws, the cache is not
    touched and the request is passed on, with a warning handed to
    [_log]; only a thrown [null] or [undefined] makes the middleware
    itself fail, on reading [error.message]. *)
Theorem rateLimit_fails_open (toISOString : Z → string) {Req : Type}
    (keyOf : Req → Outcome string) (at_least : jsval → Z → bool)
    (plus_one : jsval → jsval) (options : RateLimitOptions) (now now' : Z)
    (roll : bool) (req : Req) (c : CacheService) (this : BaseController) :
  let out := rateLimit toISOString keyOf at_least plus_one options now now' roll req
               (c, this) in
  match keyOf req with
  | Fulfilled id =>
      let cached := match (get now ("rateLimit:" +:+ id) c).1 with
                    | Fulfilled v => v
                    | Rejected _ => JUndefined
                    end in
      let current := if js_truthy cached then cached else JNum 0 in
      if at_least current (maxRequests options)
      then (∃ body, out.1 = Fulfilled (Send 429 body))
           ∧ out.2.1 = (get now ("rateLimit:" +:+ id) c).2
      else out.1 = Fulfilled Next ∧ out.2.2 = this
  | Rejected e =>
      out.2.1 = c
      ∧ match get_property e "message" with
        | Fulfilled message =>
            out.1 = Fulfilled Next
            ∧ out.2.2 = ctl_log warn "Rate limiting failed" [("error", message)] this
        | Rejected thrown =>
            (e = JNull ∨ e = JUndefined) ∧ out.1 = Rejected thrown ∧ out.2.2 = this
        end
  end.
Proof.
  intros out. unfold out, rateLimit. destruct (keyOf req) as [id | e].
  - pose proof (get_fulfilled now ("rateLimit:" +:+ id) c) as Hget.
    destruct (get now ("rateLimit:" +:+ id) c) as [o cg]. cbn [fst snd] in *.
    rewrite Hget. clear Hget. cbv zeta.
    destruct (at_least _ (maxRequests options)).
    + destruct (sendError _ _ _ _ _ _) as [reply this1] eqn:Es.
      unfold sendError in Es. injection Es as <- _. cbn [fst snd].
      split; [by eexists | done].
    + done.
  - unfold rateLimit_catch.
    destruct e; cbn [get_property fst snd]; try done; split; try done; split; auto.
Qed.

(** ** Reads and eviction *)

Section Related.
Context {A : Type} (R : A → A → Prop) (cmp : A → A → Z).
Hypothesis cmp_related : ∀ a a' b b', R a a' → R b b' → cmp a b = cmp a' b'.

Lemma sort_insert_related x x' l l' :
  R x x' → Forall2 R l l' → Forall2 R (sort_insert cmp x l) (sort_insert cmp x' l').
Proof.
  intros Hx. induction 1 as [|y y' l l' Hy Hl IH]; cbn.
  - by repeat constructor.
  - rewrite (cmp_related x x' y y' Hx Hy).
    destruct (cmp x' y' <=? 0); by repeat constructor.
Qed.

Lemma Array_sort_related l l' :
  Forall2 R l l' → Forall2 R (Array_sort cmp l) (Array_sort cmp l').
Proof.
  induction 1 as [|x x' l l' Hx Hl IH]; cbn; [constructor|].
  by apply sort_insert_related.
Qed.
End Related.

Lemma filter_related {A} (R : A → A → Prop) (P Q : A → Prop)
    `{!∀ x, Decision (P x)} `{!∀ x, Decision (Q x)} l l' :
  (∀ x y, R x y → P x ↔ Q y) → Forall2 R l l' → Forall2 R (filter P l) (filter Q l').
Proof.
  intros HPQ. induction 1 as [|x y l l' Hxy Hl IH]; [constructor|].
  rewrite !filter_cons. destruct (decide (P x)) as [HP|HP], (decide (Q y)) as [HQ|HQ].
  - by constructor.
  - by apply (HPQ x y Hxy) in HP.
  - by apply (HPQ x y Hxy) in HQ.
  - done.
Qed.

Lemma same_but_access_keys c c' : same_but_access c c' → Map_keys c = Map_keys c'.
Proof.
  unfold Map_keys. induction 1 as [|x y l l' [Hk _] Hl IH]; [done|].
  cbn. by rewrite Hk, IH.
Qed.

Lemma same_but_access_without D c c' :
  same_but_access c c' → same_but_access (without D c) (without D c').
Proof.
  apply filter_related. intros x y [Hk _]. by rewrite Hk.
Qed.

Lemma same_but_access_expired now c c' :
  same_but_access c c' → expired_keys now c = expired_keys now c'.
Proof.
  intros Hc. unfold expired_keys. apply same_but_access_keys.
  apply filter_related; [|done]. intros x y [_ (_ & _ & Hx)].
  unfold is_expired. by rewrite Hx.
Qed.

Lemma same_but_access_cleanup now s s' :
  same_but_access (cache s) (cache s') → timers s = timers s' →
  maxSize (_config s) = maxSize (_config s') →
  same_but_access (cache (_cleanup now s)) (cache (_cleanup now s'))
  ∧ timers (_cleanup now s) = timers (_cleanup now s').
Proof.
  intros Hc Ht Hm.
  assert (size_victims now s = size_victims now s') as Hv.
  { unfold size_victims. rewrite !expire_loop_eq, Hm.
    rewrite (same_but_access_expired now _ _ Hc).
    pose proof (same_but_access_without (expired_keys now (cache s')) _ _ Hc) as Hw.
    rewrite (Forall2_length _ _ _ Hw).
    destruct (maxSize (_config s') <? _); [|done].
    apply same_but_access_keys. unfold toRemove.
    rewrite (Forall2_length _ _ _ Hw). apply Forall2_take.
    apply (Array_sort_related _ by_created); [|done].
    intros a a' b b' [_ (_ & Ha & _)] [_ (_ & Hb & _)]. unfold by_created.
    by rewrite Ha, Hb. }
  rewrite !cleanup_cache, !cleanup_timers, Hv, Ht.
  rewrite (same_but_access_expired now _ _ Hc).
  split; [|done]. by do 2 apply same_but_access_without.
Qed.

Lemma same_but_access_refl c : same_but_access c c.
Proof. apply Forall2_same_length_lookup. split; [done|]. intros i x y Hx Hy.
  rewrite Hx in Hy. injection Hy as <-. by repeat split.
Qed.

Lemma same_but_access_touch now k e c :
  Map_get k c = Some e → same_but_access c (Map_set k (touch now e) c).
Proof.
  induction c as [|[k' e'] c IH]; [done|]. cbn. case_decide.
  - intros [= ->]. constructor; [by repeat split | apply same_but_access_refl].
  - intros He. constructor; [by repeat split | by apply IH].
Qed.

Lemma same_but_access_get c c' k e :
  same_but_access c c' → Map_get k c = Some e →
  ∃ e', Map_get k c' = Some e' ∧ expires e' = expires e.
Proof.
  induction 1 as [|[k1 e1] [k2 e2] l l' [Hk (_ & _ & Hx)] Hl IH]; [done|].
  cbn in *. subst k2. case_decide; [|done]. intros [= ->]. by exists e2.
Qed.

Lemma same_but_access_trans c1 c2 c3 :
  same_but_access c1 c2 → same_but_access c2 c3 → same_but_access c1 c3.
Proof.
  intros H12 H23. eapply Forall2_trans; [|exact H12|exact H23].
  intros x y z [Hk1 (Hd1 & Hc1 & Hx1)] [Hk2 (Hd2 & Hc2 & Hx2)].
  unfold same_entry. by rewrite Hk1, Hk2, Hd2, Hc2, Hx2.
Qed.

(** X14.  Reads do not protect an entry from eviction.  [get] records
    the time of the read in [lastAccessed], but the sweep orders the
    entries by [created] alone: after any sequence of reads, none of which
    finds its entry expired, a sweep keeps exactly the keys, in the same
    order, and the timers that it keeps without those reads. *)
Theorem eviction_ignores_access (now : Z) (reads : list (Z * string))
    (s : CacheService) :
  let s' := run ((λ read, OpGet read.1 read.2) <$> reads) s in
  Forall (λ read : Z * string,
            ∀ e, Map_get read.2 (cache s) = Some e → is_expired read.1 e = false)
    reads →
  Map_keys (cache (_cleanup now s')) = Map_keys (cache (_cleanup now s))
  ∧ timers (_cleanup now s') = timers (_cleanup now s).
Proof.
  intros s' Hreads.
  enough (same_but_access (cache s) (cache s') ∧ timers s = timers s'
          ∧ _config s = _config s') as (Hc & Ht & Hcfg).
  { destruct (same_but_access_cleanup now s s' Hc Ht) as [Hc' Ht'];
      [by rewrite Hcfg|].
    split; [symmetry; by apply same_but_access_keys | done]. }
  unfold s'. clear s'.
  enough (∀ s1, same_but_access (cache s) (cache s1) ∧ timers s = timers s1
                ∧ _config s = _config s1 →
                let s2 := run ((λ read, OpGet read.1 read.2) <$> reads) s1 in
                same_but_access (cache s) (cache s2) ∧ timers s = timers s2
                ∧ _config s = _config s2) as H
    by (apply H; split; [apply same_but_access_refl | done]).
  induction Hreads as [|[r k] reads Hread Hreads IH]; intros s1 (Hc & Ht & Hcfg);
    [done|].
  cbn [fmap list_fmap]. change (run (?op :: ?ops) s1) with (run ops (step op s1)).
  apply IH. cbn [step fst snd] in *. rewrite get_config. unfold get.
  destruct (Map_get k (cache s1)) as [e1|] eqn:E1; [|done].
  assert (is_expired r e1 = false) as ->.
  { destruct (Map_get k (cache s)) as [e|] eqn:E.
    - destruct (same_but_access_get _ _ k e Hc E) as (e' & He' & Hx).
      rewrite E1 in He'. injection He' as <-.
      unfold is_expired. rewrite Hx. by apply Hread.
    - exfalso. apply Map_get_None in E. rewrite (same_but_access_keys _ _ Hc) in E.
      apply Map_get_None in E. congruence. }
  cbn [snd cache timers set_stores]. split; [|done].
  eapply same_but_access_trans; [exact Hc|]. by apply same_but_access_touch.
Qed.

Lemma eviction_ignores_access_witness :
  let s := run [OpSet 1000 "old" (JNum 1) None false;
                OpSet 2000 "new" (JNum 2) None false;
                OpSetConfig {| opt_defaultTTL := None; opt_maxSize := Some 1;
                               opt_enableLogging := None; opt_logger := None;
                               opt_cleanupInterval := None |}] fresh in
  let s' := run [OpGet 3000 "old"; OpGet 4000 "old"] s in
  Map_keys (cache (_cleanup 5000 s)) = ["new"]
  ∧ Map_keys (cache (_cleanup 5000 s')) = Map_keys (cache (_cleanup 5000 s)).
Proof.
  intros s s'. split; [reflexivity|].
  apply (eviction_ignores_access 5000 [(3000, "old"); (4000, "old")] s).
  each_of_list ltac:(intros e He; vm_compute in He; injection He as <-; reflexivity).
Defined.
